(** * Localization (include/localization.js): a shallow embedding

    The module keeps a process-wide tree [Localization.storage] of plain
    JavaScript objects
    (key -> "__"+language -> "__"+COUNTRY -> "__plugins"/"__default" -> value block)
    and a quick lookup [Localization.supportedLookup].  Because the tree is
    addressed with computed property names, the embedding keeps the objects
    as they are: ordered own-property lists over a small universe of
    JavaScript values, with the lodash predicates the code applies to them.

    lodash has no function [isNullOrUndefined]: formatLocale, which calls
    it once its language is known to be a string, throws a TypeError there,
    and so does every call that has to name a locale (_registerLocale,
    unregisterLocale, isSupported).  The embedding keeps that.

    What the embedding leaves out:
    - objects are their own properties: a read [o[name]] by a name that
      Object.prototype defines (constructor, toString, __proto__, ...)
      answers in the code with the inherited member, and a write under
      [__proto__] changes the prototype.  Object.prototype itself is taken
      as the language defines it.  The general statements about calls that
      go through a name chosen by the caller (a localization key, a locale
      marker, a plugin name, the name of a parameter) therefore ask for
      names outside [object_prototype_names]; primitives have no
      properties;
    - _.forEach walks an object with a numeric property [length] by index;
      the embedding walks every object by its own properties (array
      indices first, then insertion order).  The general statements about
      _registerLocale either ask for a map whose leaves are all strings,
      no object of which is then walked by index, or hold whatever leaves
      are visited;
    - what the logger answers to [isSilly()] is a parameter of
      _registerLocale, since the message it guards is built with
      formatLocale; the messages themselves are not represented;
    - numbers are integral, strings are sequences of bytes (the scanner only
      tells braces and the percent sign from the rest, and the change of
      case touches the letters a-z and A-Z only);
    - the functions on the storage take the locale in its object form, as
      parseLocale hands it on; parseLocale, isSupported and the public
      registerLocalization, registerLocale and unregisterLocale are also
      given for a locale that arrives as a string.  A key and a value are
      strings, [options] is an object or absent, so the guards that throw on
      other arguments are not represented;
    - the constructor, best, init, getSupported, getSupportedWithDisplay and
      getLocalizationPackage go through the locale package, the file system
      or the validation service and are not part of the embedding. *)

From Stdlib Require Import String Ascii List ZArith NArith Bool Lia DecimalString Permutation.
Import ListNotations.
Open Scope string_scope.

Set Warnings "-register-all".

(** ** JavaScript values *)

Module JS.

(** [JNum] stands for integral number values; objects are plain objects
    (own enumerable string-keyed properties, in insertion order). *)
Inductive jsval : Type :=
| JUndef
| JNull
| JBool (b : bool)
| JNum (n : Z)
| JStr (s : string)
| JObj (ps : list (string * jsval)).

Definition props := list (string * jsval).

(** _.isNil, _.isString, _.isObject *)
Definition isNil (v : jsval) : bool :=
  match v with JUndef | JNull => true | _ => false end.

Definition isString (v : jsval) : bool :=
  match v with JStr _ => true | _ => false end.

Definition isObject (v : jsval) : bool :=
  match v with JObj _ => true | _ => false end.

Definition isUndefined (v : jsval) : bool :=
  match v with JUndef => true | _ => false end.

(** ToBoolean, as used by [!x], [x || y] and [x ? a : b]. *)
Definition truthy (v : jsval) : bool :=
  match v with
  | JUndef | JNull => false
  | JBool b => b
  | JNum n => negb (Z.eqb n 0)
  | JStr s => negb (String.eqb s EmptyString)
  | JObj _ => true
  end.

(** [a || b] *)
Definition js_or (a b : jsval) : jsval := if truthy a then a else b.

(** ToString, as applied by [+=] on a string and by a computed property
    name: a number in decimal digits (as it is written below 10^21), an
    object as a plain object without toString or valueOf of its own. *)
Definition to_string (v : jsval) : string :=
  match v with
  | JUndef => "undefined"
  | JNull => "null"
  | JBool true => "true"
  | JBool false => "false"
  | JNum n => NilZero.string_of_int (Z.to_int n)
  | JStr s => s
  | JObj _ => "[object Object]"
  end.

(** [a === s] for a string [s] *)
Definition strict_eq_str (a : jsval) (s : string) : bool :=
  match a with JStr t => String.eqb t s | _ => false end.

(** *** Own properties, in insertion order *)

Section OwnProperties.
Context {A : Type}.

Fixpoint get_own (ps : list (string * A)) (p : string) : option A :=
  match ps with
  | [] => None
  | (q, v) :: rest => if String.eqb q p then Some v else get_own rest p
  end.

(** [o[p] = v]: an existing property keeps its place, a new one goes last. *)
Fixpoint set_own (ps : list (string * A)) (p : string) (v : A) : list (string * A) :=
  match ps with
  | [] => [(p, v)]
  | (q, w) :: rest =>
      if String.eqb q p then (q, v) :: rest else (q, w) :: set_own rest p v
  end.

(** [delete o[p]] *)
Fixpoint del_own (ps : list (string * A)) (p : string) : list (string * A) :=
  match ps with
  | [] => []
  | (q, w) :: rest =>
      if String.eqb q p then del_own rest p else (q, w) :: del_own rest p
  end.
End OwnProperties.

(** *** Enumeration order: array indices ascending, then insertion order *)

Definition digit_of (c : ascii) : option N :=
  let n := N_of_ascii c in
  if andb (N.leb 48 n) (N.leb n 57) then Some (n - 48)%N else None.

Fixpoint digits_value (s : string) (acc : N) : option N :=
  match s with
  | EmptyString => Some acc
  | String c rest =>
      match digit_of c with
      | Some d => digits_value rest (acc * 10 + d)%N
      | None => None
      end
  end.

(** A canonical numeric string below 2^32 - 1. *)
Definition array_index (s : string) : option N :=
  match s with
  | EmptyString => None
  | String c rest =>
      if andb (Ascii.eqb c "0") (negb (String.eqb rest EmptyString)) then None
      else match digits_value s 0 with
           | Some n => if N.leb n 4294967294 then Some n else None
           | None => None
           end
  end.

Section Enumeration.
Context {A : Type}.

Fixpoint insert_index (x : N * (string * A)) (l : list (N * (string * A)))
  : list (N * (string * A)) :=
  match l with
  | [] => [x]
  | y :: rest => if N.leb (fst x) (fst y) then x :: l else y :: insert_index x rest
  end.

Fixpoint index_entries (ps : list (string * A)) : list (N * (string * A)) :=
  match ps with
  | [] => []
  | (q, v) :: rest =>
      match array_index q with
      | Some n => insert_index (n, (q, v)) (index_entries rest)
      | None => index_entries rest
      end
  end.

Fixpoint named_entries (ps : list (string * A)) : list (string * A) :=
  match ps with
  | [] => []
  | (q, v) :: rest =>
      match array_index q with
      | Some _ => named_entries rest
      | None => (q, v) :: named_entries rest
      end
  end.

(** The own properties in the order Object.keys and _.forEach visit them. *)
Definition own_entries (ps : list (string * A)) : list (string * A) :=
  map snd (index_entries ps) ++ named_entries ps.

Definition own_keys (ps : list (string * A)) : list string :=
  map fst (own_entries ps).
End Enumeration.

(** *** Property access *)

(** [o[p]] where the code has already established that [o] is neither null
    nor undefined: a missing property, or any property of a primitive, reads
    as undefined.  The read sees own properties only; for a name that
    Object.prototype defines and the object does not, the code reads the
    inherited member. *)
Definition getp (o : jsval) (p : string) : jsval :=
  match o with
  | JObj ps => match get_own ps p with Some v => v | None => JUndef end
  | _ => JUndef
  end.

(** Object.keys(o) *)
Definition keys_of (o : jsval) : list string :=
  match o with JObj ps => own_keys ps | _ => [] end.

(** Completions: a call returns normally or throws. *)
Inductive completion (A : Type) : Type :=
| Normal (a : A)
| Throw (msg : string).
Arguments Normal {A} a.
Arguments Throw {A} msg.

Definition bindc {A B} (c : completion A) (f : A -> completion B) : completion B :=
  match c with
  | Normal a => f a
  | Throw m => Throw m
  end.

(** [o[p]] with no guard before it: reading through null or undefined is a
    TypeError. *)
Definition get (o : jsval) (p : string) : completion jsval :=
  if isNil o then Throw "TypeError: cannot read properties of undefined or null"
  else Normal (getp o p).

(** [o[p] = v] under 'use strict': only objects take properties. *)
Definition put (o : jsval) (p : string) (v : jsval) : completion jsval :=
  match o with
  | JObj ps => Normal (JObj (set_own ps p v))
  | _ => Throw "TypeError: cannot set properties of a non-object"
  end.

(** [delete o[p]] on a value the code has found to be non-nil. *)
Definition delp (o : jsval) (p : string) : jsval :=
  match o with
  | JObj ps => JObj (del_own ps p)
  | _ => o
  end.

End JS.
Export JS.

Notation "x <- c ;; k" := (bindc c (fun x => k))
  (at level 61, c at next level, right associativity).

(** ** Strings *)

Definition ascii_lower (c : ascii) : ascii :=
  let n := N_of_ascii c in
  if andb (N.leb 65 n) (N.leb n 90) then ascii_of_N (n + 32) else c.

Definition ascii_upper (c : ascii) : ascii :=
  let n := N_of_ascii c in
  if andb (N.leb 97 n) (N.leb n 122) then ascii_of_N (n - 32) else c.

(** String.prototype.toLowerCase / toUpperCase on the ASCII letters. *)
Fixpoint toLowerCase (s : string) : string :=
  match s with
  | EmptyString => EmptyString
  | String c r => String (ascii_lower c) (toLowerCase r)
  end.

Fixpoint toUpperCase (s : string) : string :=
  match s with
  | EmptyString => EmptyString
  | String c r => String (ascii_upper c) (toUpperCase r)
  end.

(** ** The Localization module *)

(** A locale in its object form, as parseLocale hands it on: [language] is a
    string, [countryCode] is a string or nil. *)
Record Locale : Type := mkLocale {
  language : string;
  countryCode : option string
}.

Definition LOCALE_PART_SEP : string := "-".
Definition KEY_SEP : string := ".".

(** function k(key) *)
Definition k (key : string) : string := "__" ++ key.

(** [_.isNullOrUndefined(v)]: lodash has no function of that name, so the
    member reads as undefined and calling it is a TypeError. *)
Definition isNullOrUndefined (v : option string) : completion bool :=
  Throw "TypeError: _.isNullOrUndefined is not a function".

(** Localization.formatLocale(language, countryCode), for arguments that are
    strings or nil.  The guard on [countryCode] starts with the call of
    [_.isNullOrUndefined]. *)
Definition formatLocale (language countryCode : option string) : completion string :=
  match language with
  | None => Throw "language parameter is required"
  | Some l =>
      nil <- isNullOrUndefined countryCode ;;
      if andb (negb nil) (negb match countryCode with Some _ => true | None => false end)
      then Throw "countryCode parameter must be a string"
      else
        let localeStr := toLowerCase l in
        Normal match countryCode with
               | Some cc => localeStr ++ LOCALE_PART_SEP ++ toUpperCase cc
               | None => localeStr
               end
  end.

(** *** Parameters *)

(** PARAM_REPLACEMENT_REGEX matches an opening brace, any run of characters
    that are not braces, and a closing brace; [search] looks for the first
    match.  [opened] holds while the last brace seen is an opening one. *)
Fixpoint has_param_span (s : string) (opened : bool) : bool :=
  match s with
  | EmptyString => false
  | String c r =>
      if Ascii.eqb c "{" then has_param_span r true
      else if Ascii.eqb c "}" then (if opened then true else has_param_span r false)
      else has_param_span r opened
  end.

Definition containsParameters (localizationValue : string) : bool :=
  has_param_span localizationValue false.

(** The scanner state of replaceParameters. *)
Record scan : Type := mkScan {
  prev : option ascii;
  isOpen : bool;
  variable : string;
  val : string
}.

Definition append_char (s : string) (c : ascii) : string := String.append s (String c EmptyString).

(** One turn of the [for] loop of replaceParameters. *)
Definition scan_step (params defaultVal : jsval) (st : scan) (c : ascii) : scan :=
  let not_escaped :=
    match prev st with Some p => negb (Ascii.eqb p "%") | None => true end in
  if andb (andb (negb (isOpen st)) (Ascii.eqb c "{")) not_escaped then
    mkScan (Some c) true (variable st) (val st)
  else if andb (isOpen st) (Ascii.eqb c "}") then
    mkScan (Some c) false EmptyString
      (val st ++ to_string
         (js_or (js_or (getp params (variable st)) defaultVal) (JStr (variable st))))
  else if isOpen st then
    mkScan (Some c) true (append_char (variable st) c) (val st)
  else
    mkScan (Some c) false (variable st) (append_char (val st) c).

Fixpoint scan_loop (params defaultVal : jsval) (value : string) (st : scan) : scan :=
  match value with
  | EmptyString => st
  | String c r => scan_loop params defaultVal r (scan_step params defaultVal st c)
  end.

(** The body of replaceParameters once both guards have passed. *)
Definition interpolate (value : string) (params defaultVal : jsval) : string :=
  val (scan_loop params defaultVal value (mkScan None false EmptyString EmptyString)).

(** Localization.replaceParameters *)
Definition replaceParameters (value params defaultVal : jsval) : completion string :=
  match value with
  | JStr s =>
      if isObject params then Normal (interpolate s params defaultVal)
      else Throw "params parameter is required"
  | _ => Throw "value parameter is required"
  end.

(** *** Process-wide state *)

(** [Localization.storage], [Localization.supportedLookup] and the list of
    locales handed to [new Locale.Locales(...)] for [Localization.supported]. *)
Record LocState : Type := mkState {
  storage : props;
  supportedLookup : list (string * Locale);
  supported : list string
}.

Definition empty_state : LocState := mkState [] [] [].

Definition with_storage (st : LocState) (s : props) : LocState :=
  mkState s (supportedLookup st) (supported st).

(** function findKeyBlock(key, create): the storage after the call and the
    value returned. *)
Definition findKeyBlock (key : string) (create : bool) (sto : props) : props * jsval :=
  let sto' :=
    if andb create (isUndefined (getp (JObj sto) key))
    then set_own sto key (JObj []) else sto in
  (sto', getp (JObj sto') key).

(** [!Localization.storage[key]] *)
Definition key_absent (sto : props) (key : string) : bool :=
  negb (truthy (getp (JObj sto) key)).

(** The value block _registerLocalization builds. *)
Definition valueBlock (value : string) : jsval :=
  JObj [("value", JStr value); ("isParameterized", JBool (containsParameters value))].

(** [if (_.isNil(o[p])) { o[p] = {}; }] *)
Definition ensure (o : jsval) (p : string) : completion jsval :=
  x <- get o p ;;
  if isNil x then put o p (JObj []) else Normal o.

(** "check to see if we are setting a default localization or a plugin
    specific one": returns the insertion block after the assignment. *)
Definition insert_value (insertionBlock plugin vb : jsval) : completion jsval :=
  match plugin with
  | JStr p =>
      ib <- ensure insertionBlock "__plugins" ;;
      pb <- get ib "__plugins" ;;
      pb' <- put pb p vb ;;
      put ib "__plugins" pb'
  | _ => put insertionBlock "__default" vb
  end.

(** The walk of _registerLocalization below the key block; the blocks are
    mutated in place, so each changed child is stored back in its parent. *)
Definition insert_at (locale : Locale) (plugin vb keyBlock : jsval) : completion jsval :=
  let langKey := k (language locale) in
  kb <- ensure keyBlock langKey ;;
  langBlock <- get kb langKey ;;
  langBlock' <-
    match countryCode locale with
    | Some cc =>
        let countryKey := k cc in
        lb <- ensure langBlock countryKey ;;
        countryBlock <- get lb countryKey ;;
        countryBlock' <- insert_value countryBlock plugin vb ;;
        put lb countryKey countryBlock'
    | None => insert_value langBlock plugin vb
    end ;;
  put kb langKey langBlock'.

(** Localization._registerLocalization(locale, key, value, options), with
    [plugin] standing for [options.plugin].  A TypeError can only come from a
    block that already existed, hence before anything was created below it. *)
Definition _registerLocalization (locale : Locale) (key value : string) (plugin : jsval)
    (st : LocState) : completion bool * LocState :=
  let '(sto, keyBlock) := findKeyBlock key true (storage st) in
  match insert_at locale plugin (valueBlock value) keyBlock with
  | Normal keyBlock' => (Normal true, with_storage st (set_own sto key keyBlock'))
  | Throw m => (Throw m, with_storage st sto)
  end.

(** Storing a changed block back in its parent, both known to be objects. *)
Definition setp (o : jsval) (p : string) (v : jsval) : jsval :=
  match o with
  | JObj ps => JObj (set_own ps p v)
  | _ => o
  end.

(** Localization.unregisterLocalization(locale, key, options), with [plugin]
    standing for [options.plugin]. *)
Definition unregisterLocalization (locale : Locale) (key : string) (plugin : jsval)
    (st : LocState) : completion bool * LocState :=
  let sto := storage st in
  if key_absent sto key then (Normal false, st) else
  let keyBlock := snd (findKeyBlock key false sto) in
  if negb (truthy keyBlock) then (Normal false, st) else
  let langKey := k (language locale) in
  let langBlock := getp keyBlock langKey in
  if isNil langBlock then (Normal false, st) else
  let store langBlock' :=
    with_storage st (set_own sto key (setp keyBlock langKey langBlock')) in
  match countryCode locale with
  | Some cc =>
      let countryKey := k cc in
      let countryBlock := getp langBlock countryKey in
      if andb (negb (isNil countryBlock)) (isString plugin) then
        if isString (getp countryBlock (to_string plugin)) then
          (Normal true,
           store (setp langBlock countryKey (delp countryBlock (to_string plugin))))
        else (Normal false, st)
      else
        match get countryBlock "__default" with
        | Throw m => (Throw m, st)
        | Normal d =>
            if isObject d then
              (Normal true, store (setp langBlock countryKey (delp countryBlock "__default")))
            else (Normal false, st)
        end
  | None =>
      let pluginsBlock := getp langBlock "__plugins" in
      if andb (isString plugin) (isObject pluginsBlock) then
        if isString (getp pluginsBlock (to_string plugin)) then
          (Normal true,
           store (setp langBlock "__plugins" (delp pluginsBlock (to_string plugin))))
        else (Normal false, st)
      else if isString (getp langBlock "__default") then
        (Normal true, store (delp langBlock "__default"))
      else (Normal false, st)
  end.

(** The [reduce] of unregisterLocale over the keys of the storage. *)
Fixpoint unregister_keys (locale : Locale) (plugin : jsval) (keys : list string)
    (prev : Z) (st : LocState) : completion Z * LocState :=
  match keys with
  | [] => (Normal prev, st)
  | key :: rest =>
      match unregisterLocalization locale key plugin st with
      | (Normal removed, st') =>
          unregister_keys locale plugin rest (prev + (if removed then 1 else 0))%Z st'
      | (Throw m, st') => (Throw m, st')
      end
  end.

(** Localization.unregisterLocale(locale, options) *)
Definition unregisterLocale (locale : Locale) (plugin : jsval) (st : LocState)
    : completion bool * LocState :=
  match unregister_keys locale plugin (own_keys (storage st)) 0%Z st with
  | (Throw m, st') => (Throw m, st')
  | (Normal keysRemoved, st') =>
      match formatLocale (Some (language locale)) (countryCode locale) with
      | Throw m => (Throw m, st')
      | Normal name =>
          let lookup := del_own (supportedLookup st') name in
          (Normal (Z.ltb 0 keysRemoved), mkState (storage st') lookup (own_keys lookup))
      end
  end.

(** *** Bulk registration *)

(** [prefix ? prefix + KEY_SEP + key : key]; the top level passes null. *)
Definition queue_key (prefix : option string) (key : string) : string :=
  match prefix with
  | Some p => if String.eqb p EmptyString then key else p ++ KEY_SEP ++ key
  | None => key
  end.

(** processObj(prefix, obj): the items pushed on the queue, in the order
    _.forEach visits the own properties of a plain object (one that is not
    array-like). *)
Definition processObj (prefix : option string) (obj : jsval) : list (string * jsval) :=
  match obj with
  | JObj ps => map (fun e => (queue_key prefix (fst e), snd e)) (own_entries ps)
  | _ => []
  end.

(** The [while (queue.length > 0)] loop of _registerLocale.  [None] only when
    [fuel] turns are not enough to empty the queue.  A value that is neither
    an object nor a string is reported through log.warn, whose arguments
    start with a call of formatLocale. *)
Fixpoint register_queue (fuel : nat) (locale : Locale) (plugin : jsval)
    (queue : list (string * jsval)) (compoundedResult : bool) (st : LocState)
    : option (completion bool * LocState) :=
  match queue with
  | [] => Some (Normal compoundedResult, st)
  | (key, v) :: rest =>
      match fuel with
      | O => None
      | S fuel' =>
          match v with
          | JObj _ =>
              register_queue fuel' locale plugin (rest ++ processObj (Some key) v)
                compoundedResult st
          | JStr value =>
              if compoundedResult then
                match _registerLocalization locale key value plugin st with
                | (Normal r, st') => register_queue fuel' locale plugin rest r st'
                | (Throw m, st') => Some (Throw m, st')
                end
              else register_queue fuel' locale plugin rest false st
          | _ =>
              match formatLocale (Some (language locale)) (countryCode locale) with
              | Normal _ => register_queue fuel' locale plugin rest false st
              | Throw m => Some (Throw m, st)
              end
          end
      end
  end.

(** The number of values in a tree: one turn of the loop per value. *)
Fixpoint weight (v : jsval) : nat :=
  match v with
  | JObj ps =>
      S ((fix sum (l : list (string * jsval)) : nat :=
            match l with
            | [] => 0
            | (_, x) :: r => weight x + sum r
            end) ps)
  | _ => 1
  end.

(** Localization.isSupported applied to a locale object, as _registerLocale
    calls it: the [_.isString(locale)] guard fails. *)
Definition isSupported_object (locale : Locale) : bool := false.

(** Localization._registerLocale(locale, localizations, options), with
    [plugin] standing for [options.plugin] and [silly] for what
    [log.isSilly()] answers: the message it guards is built with
    formatLocale. *)
Definition _registerLocale (silly : bool) (locale : Locale) (localizations plugin : jsval)
    (st : LocState) : completion bool * LocState :=
  if negb (isObject localizations) then (Throw "localizations parameter is required", st)
  else
    match (if silly then formatLocale (Some (language locale)) (countryCode locale)
           else Normal EmptyString) with
    | Throw m => (Throw m, st)
    | Normal _ =>
        match register_queue (weight localizations) locale plugin
                (processObj None localizations) true st with
        | None => (Throw "queue not emptied", st)
        | Some (Throw m, st') => (Throw m, st')
        | Some (Normal compoundedResult, st') =>
            if andb compoundedResult (negb (isSupported_object locale)) then
              match formatLocale (Some (language locale)) (countryCode locale) with
              | Throw m => (Throw m, st')
              | Normal name =>
                  let lookup := set_own (supportedLookup st') name locale in
                  (Normal compoundedResult, mkState (storage st') lookup (own_keys lookup))
              end
            else (Normal compoundedResult, st')
        end
    end.

(** *** Lookup *)

(** A Localization instance: the parsed locale, the per-instance cache and
    the active theme. *)
Record Instance : Type := mkInstance {
  localeObj : Locale;
  cache : props;
  activeTheme : jsval
}.

Definition with_cache (self : Instance) (c : props) : Instance :=
  mkInstance (localeObj self) c (activeTheme self).

(** The fields of the [options] object that g reads; undefined when absent. *)
Record GOptions : Type := mkOptions {
  opt_params : jsval;
  opt_plugin : jsval;
  opt_defaultVal : jsval;
  opt_defaultParamVal : jsval
}.

(** [{ site: SiteService.GLOBAL_SITE, params: {} }] *)
Definition default_options : GOptions := mkOptions (JObj []) JUndef JUndef JUndef.

Section Lookup.
(** What the closures of g capture. *)
Variable key : string.
Variable params : jsval.
Variable defaultParamVal : jsval.
Variable plugin : jsval.

(** var processValue = function (localization) *)
Definition processValue (localization : jsval) (c : props) : completion jsval * props :=
  let c' := set_own c key localization in
  if truthy (getp localization "isParameterized") then
    match replaceParameters (getp localization "value") params defaultParamVal with
    | Normal s => (Normal (JStr s), c')
    | Throw m => (Throw m, c')
    end
  else (Normal (getp localization "value"), c').

(** The [for] loop over Object.keys(pluginsBlock): the first plugin other
    than the active one that holds a value. *)
Fixpoint first_other_plugin (pluginsBlock : jsval) (pluginsToInspect : list string)
  : option jsval :=
  match pluginsToInspect with
  | [] => None
  | name :: rest =>
      if strict_eq_str plugin name then first_other_plugin pluginsBlock rest
      else if negb (isNil (getp pluginsBlock name)) then Some (getp pluginsBlock name)
      else first_other_plugin pluginsBlock rest
  end.

(** var processKeyBlock = function (keyBlock) *)
Definition processKeyBlock (keyBlock : jsval) (c : props) : completion jsval * props :=
  let fromDefault :=
    if negb (isNil (getp keyBlock "__default"))
    then processValue (getp keyBlock "__default") c
    else (Normal JNull, c) in
  let pluginsBlock := getp keyBlock "__plugins" in
  if negb (isNil pluginsBlock) then
    if negb (isNil (getp pluginsBlock (to_string plugin))) then
      processValue (getp pluginsBlock (to_string plugin)) c
    else
      match first_other_plugin pluginsBlock (keys_of pluginsBlock) with
      | Some localization => processValue localization c
      | None => fromDefault
      end
  else fromDefault.

(** var processLanguageBlock = function (langBlock), with the captured
    variable [locale] made explicit. *)
Definition processLanguageBlock (locale : Locale) (langBlock : jsval) (c : props)
  : completion jsval * props :=
  if negb (isObject langBlock) then (Normal JNull, c) else
  let atLanguage (c1 : props) :=
    match processKeyBlock langBlock c1 with
    | (Normal langResult, c2) =>
        if isString langResult then (Normal langResult, c2) else (Normal JNull, c2)
    | (Throw m, c2) => (Throw m, c2)
    end in
  match countryCode locale with
  | Some cc =>
      let countryKey := k cc in
      if negb (isNil (getp langBlock countryKey)) then
        match processKeyBlock (getp langBlock countryKey) c with
        | (Normal countryResult, c1) =>
            if isString countryResult then (Normal countryResult, c1) else atLanguage c1
        | (Throw m, c1) => (Throw m, c1)
        end
      else atLanguage c
  | None => atLanguage c
  end.
End Lookup.

(** var finalize = function (result) *)
Definition finalize (key : string) (defaultVal result : jsval) : jsval :=
  if orb (isString result) (negb (isUndefined defaultVal)) then result else JStr key.

(** [defaultLocale.language !== this.localeObj.language ||
     defaultLocale.countryCode !== this.localeObj.countryCode] *)
Definition locale_differs (a b : Locale) : bool :=
  orb (negb (String.eqb (language a) (language b)))
      (negb match countryCode a, countryCode b with
            | Some x, Some y => String.eqb x y
            | None, None => true
            | _, _ => false
            end).

(** [options = options || {...}] *)
Definition options_or_default (options : option GOptions) : GOptions :=
  match options with Some o => o | None => default_options end.

(** [var params = options.params || {}] *)
Definition params_of (options : GOptions) : jsval := js_or (opt_params options) (JObj []).

(** Localization.prototype.g(key, options).  [defaultLocale] is
    parseLocaleStr(getDefaultLocale()); [sto] is Localization.storage. *)
Definition g (defaultLocale : Locale) (sto : props) (key : string)
    (options : option GOptions) (self : Instance) : completion jsval * Instance :=
  let options := options_or_default options in
  let params := params_of options in
  if negb (isObject params) then (Throw "params parameter is required", self) else
  let locale := localeObj self in
  let plugin := js_or (opt_plugin options) (activeTheme self) in
  let dpv := opt_defaultParamVal options in
  let final := finalize key (opt_defaultVal options) in
  if key_absent sto key then
    (Normal (final (opt_defaultVal options)), self)
  else if truthy (getp (JObj (cache self)) key) then
    match processValue key params dpv (getp (JObj (cache self)) key) (cache self) with
    | (Normal r, c) => (Normal (final r), with_cache self c)
    | (Throw m, c) => (Throw m, with_cache self c)
    end
  else
    let keyBlock := snd (findKeyBlock key false sto) in
    if negb (truthy keyBlock) then (Normal JNull, self) else
    let langKey := k (language locale) in
    match processLanguageBlock key params dpv plugin locale (getp keyBlock langKey)
            (cache self) with
    | (Throw m, c) => (Throw m, with_cache self c)
    | (Normal result, c) =>
        if negb (isString result) then
          if locale_differs defaultLocale (localeObj self) then
            match processLanguageBlock key params dpv plugin defaultLocale
                    (getp keyBlock (k (language defaultLocale))) c with
            | (Normal result', c') => (Normal (final result'), with_cache self c')
            | (Throw m, c') => (Throw m, with_cache self c')
            end
          else (Normal (final (opt_defaultVal options)), with_cache self c)
        else (Normal (final result), with_cache self c)
    end.

(** A fresh instance: [this.cache = {}], an object with no own property. *)
Definition new_instance (locale : Locale) (activeTheme : jsval) : Instance :=
  mkInstance locale [] activeTheme.

(** ** Reading the tree *)

(** The block a lookup for [locale] reaches first: the country block when the
    locale carries a country code, the language block otherwise. *)
Definition level_block (sto : props) (locale : Locale) (key : string) : jsval :=
  let langBlock := getp (getp (JObj sto) key) (k (language locale)) in
  match countryCode locale with
  | Some cc => getp langBlock (k cc)
  | None => langBlock
  end.

Definition default_slot (block : jsval) : jsval := getp block "__default".

Definition plugin_slot (block : jsval) (name : string) : jsval :=
  getp (getp block "__plugins") name.


(** ** What the regular expression matches *)

(** No brace in the string. *)
Fixpoint no_brace (s : string) : bool :=
  match s with
  | EmptyString => true
  | String c r => andb (negb (orb (Ascii.eqb c "{") (Ascii.eqb c "}"))) (no_brace r)
  end.

(** The string holds a match of PARAM_REPLACEMENT_REGEX: an opening brace, a
    run without braces, a closing brace. *)
Definition has_match (s : string) : Prop :=
  exists a m b, s = a ++ String "{" (m ++ String "}" b) /\ no_brace m = true.

(** ** Slots of a block *)

(** A slot is empty or holds a value block. *)
Definition slot_ok (slot : jsval) : Prop :=
  isNil slot = true \/ exists value, slot = valueBlock value.

(** [block.__plugins] is missing or an object. *)
Definition plugins_block_ok (block : jsval) : Prop :=
  isNil (getp block "__plugins") = true \/ isObject (getp block "__plugins") = true.


(** The plugin slots and the default slot of a block hold value blocks only. *)
Definition slots_well_formed (block : jsval) : Prop :=
  plugins_block_ok block /\
  (forall name, slot_ok (plugin_slot block name)) /\
  slot_ok (default_slot block).


(** ** Sequences of calls *)

(** The calls that change the process-wide state. *)
Inductive operation : Type :=
| RegisterLocalization (locale : Locale) (key value : string) (plugin : jsval)
| RegisterLocale (silly : bool) (locale : Locale) (localizations plugin : jsval)
| UnregisterLocalization (locale : Locale) (key : string) (plugin : jsval)
| UnregisterLocale (locale : Locale) (plugin : jsval).

(** The state an operation leaves behind, whether it returns or throws. *)
Definition run (op : operation) (st : LocState) : LocState :=
  match op with
  | RegisterLocalization locale key value plugin =>
      snd (_registerLocalization locale key value plugin st)
  | RegisterLocale silly locale localizations plugin =>
      snd (_registerLocale silly locale localizations plugin st)
  | UnregisterLocalization locale key plugin =>
      snd (unregisterLocalization locale key plugin st)
  | UnregisterLocale locale plugin =>
      snd (unregisterLocale locale plugin st)
  end.

Definition run_all (ops : list operation) (st : LocState) : LocState :=
  fold_left (fun s op => run op s) ops st.

(** [Localization.storage[key]] is an object. *)
Definition key_block_present (st : LocState) (key : string) : Prop :=
  isObject (getp (JObj (storage st)) key) = true.

(** The values waiting in a queue, counted through their subtrees. *)
Definition entries_weight (l : list (string * jsval)) : nat :=
  list_sum (map (fun e => weight (snd e)) l).

(** ** Leaves of a localization map *)

(** Every leaf of the tree is a string. *)
Fixpoint all_strings (v : jsval) : bool :=
  match v with
  | JStr _ => true
  | JObj ps =>
      (fix every (l : list (string * jsval)) : bool :=
         match l with
         | [] => true
         | (_, x) :: r => andb (all_strings x) (every r)
         end) ps
  | _ => false
  end.

(** Every leaf below the items of a queue is a string. *)
Definition queue_all_strings (queue : list (string * jsval)) : bool :=
  forallb (fun e => all_strings (snd e)) queue.

(** ** Well-formed storage *)

(** The two country markers that would fall on the slot names of a language
    block; parseLocaleStr upper-cases country codes, so they can only come
    from a locale object built by hand. *)
Definition reserved (name : string) : bool :=
  orb (String.eqb name "default") (String.eqb name "plugins").

(** A locale whose country marker is not a slot name. *)
Definition locale_normal (l : Locale) : Prop :=
  match countryCode l with
  | Some cc => reserved cc = false
  | None => True
  end.

(** The block a lookup for [locale] reaches first below a key block. *)
Definition block_at (keyBlock : jsval) (locale : Locale) : jsval :=
  let langBlock := getp keyBlock (k (language locale)) in
  match countryCode locale with
  | Some cc => getp langBlock (k cc)
  | None => langBlock
  end.

(** A level is missing, or an object whose slots hold value blocks. *)
Definition level_ok (block : jsval) : Prop :=
  isNil block = true \/ (isObject block = true /\ slots_well_formed block).

(** [Localization.storage[key]] is missing or an object, and every level
    below it is as it should be. *)
Definition key_block_ok (keyBlock : jsval) : Prop :=
  (isUndefined keyBlock = true \/ isObject keyBlock = true) /\
  forall locale, locale_normal locale -> level_ok (block_at keyBlock locale).

(** Every key block of the storage is as it should be. *)
Definition storage_ok (sto : props) : Prop :=
  forall key, key_block_ok (getp (JObj sto) key).

(** What [ensure] leaves under the property it was asked for. *)
Definition or_empty (v : jsval) : jsval := if isNil v then JObj [] else v.

(** The locale of a call is regular. *)
Definition operation_normal (op : operation) : Prop :=
  match op with
  | RegisterLocalization locale _ _ _
  | RegisterLocale _ locale _ _
  | UnregisterLocalization locale _ _
  | UnregisterLocale locale _ => locale_normal locale
  end.

(** ** Sample locales, states and calls *)

Definition en : Locale := mkLocale "en" None.
Definition en_US : Locale := mkLocale "en" (Some "US").
Definition fr : Locale := mkLocale "fr" None.
Definition de_DE : Locale := mkLocale "de" (Some "DE").

Definition no_plugin : jsval := JUndef.

Definition state_after (r : completion bool * LocState) : LocState := snd r.

(** "greeting" registered for fr only. *)
Definition french_only : LocState :=
  state_after (_registerLocalization fr "greeting" "Bonjour" no_plugin empty_state).

(** "greeting" registered for en only, at the language level. *)
Definition english_only : LocState :=
  state_after (_registerLocalization en "greeting" "Hello" no_plugin empty_state).

(** en-US loaded through _registerLocale with one key (the call stores the
    key and then throws), then the same key registered again on its own. *)
Definition en_US_loaded_calls : list operation :=
  [RegisterLocale false en_US (JObj [("greeting", JStr "Hello")]) no_plugin].

Definition en_US_loaded : LocState := run_all en_US_loaded_calls empty_state.

Definition en_US_registered : LocState :=
  state_after (_registerLocalization en_US "greeting" "Hello" no_plugin en_US_loaded).

(** "greeting" for en-US with a default and two plugin values, and for en
    with a default. *)
Definition themed : LocState :=
  state_after (_registerLocalization en "greeting" "Hello" no_plugin
  (state_after (_registerLocalization en_US "greeting" "Howdy from {name}" (JStr "shop")
  (state_after (_registerLocalization en_US "greeting" "Howdy, reader" (JStr "blog")
  (state_after (_registerLocalization en_US "greeting" "Howdy" no_plugin empty_state))))))).

(** "farewell" for en-US (default only) and for en (default and a plugin). *)
Definition layered_calls : list operation :=
  [RegisterLocalization en_US "farewell" "See ya" no_plugin;
   RegisterLocalization en "farewell" "Goodbye" no_plugin;
   RegisterLocalization en "farewell" "Goodbye, reader" (JStr "blog")].

Definition layered : LocState := run_all layered_calls empty_state.

(** A visitor with locale en-US and no active theme; two calls that differ
    in plugin and parameters. *)
Definition visitor : Instance := new_instance en_US JUndef.

Definition shop_call : option GOptions :=
  Some (mkOptions (JObj [("name", JStr "Ada")]) (JStr "shop") JUndef JUndef).

Definition blog_call : option GOptions :=
  Some (mkOptions (JObj [("name", JStr "Bob")]) (JStr "blog") JUndef JUndef).

(** The visitor after a first lookup of "greeting" through the shop plugin. *)
Definition returning_visitor : Instance :=
  snd (g en_US (storage themed) "greeting" shop_call visitor).

(** ** The locale codec *)

Definition JS_EXT : string := ".js".

(** String.prototype.lastIndexOf(searchString): the position of the last
    occurrence, -1 when there is none. *)
Fixpoint lastIndexOf (s searchString : string) : Z :=
  match s with
  | EmptyString => if String.prefix searchString EmptyString then 0%Z else (-1)%Z
  | String c r =>
      let i := lastIndexOf r searchString in
      if Z.leb 0 i then (i + 1)%Z
      else if String.prefix searchString s then 0%Z else (-1)%Z
  end.

(** String.prototype.substr(start, length) *)
Definition substr (s : string) (start len : Z) : string :=
  let size := Z.of_nat (String.length s) in
  let start' := if Z.ltb start 0 then Z.max (size + start) 0 else Z.min start size in
  let len' := Z.min (Z.max len 0) (size - start') in
  String.substring (Z.to_nat start') (Z.to_nat len') s.

(** String.prototype.split(separator) for a separator of one character. *)
Fixpoint split (sep : ascii) (s : string) : list string :=
  match s with
  | EmptyString => [EmptyString]
  | String c r =>
      if Ascii.eqb c sep then EmptyString :: split sep r
      else match split sep r with
           | h :: t => String c h :: t
           | [] => [String c EmptyString]
           end
  end.

(** What parseLocaleStr builds from a string: each field a string or null. *)
Record ParsedLocale : Type := mkParsed {
  p_language : option string;
  p_countryCode : option string
}.

(** [parts[i] ? f(parts[i]) : null] *)
Definition part (parts : list string) (i : nat) (f : string -> string) : option string :=
  match nth_error parts i with
  | Some p => if String.eqb p EmptyString then None else Some (f p)
  | None => None
  end.

(** Localization.parseLocaleStr(filePath) for a string argument. *)
Definition parseLocaleStr (filePath : string) : ParsedLocale :=
  let lastSlashPos :=
    let p := lastIndexOf filePath "/" in
    if Z.ltb p 0 then lastIndexOf filePath "\" else p in
  let extPos :=
    let e := lastIndexOf filePath JS_EXT in
    if Z.ltb e 0 then Z.of_nat (String.length filePath) else e in
  let locale := substr filePath (lastSlashPos + 1) (extPos - lastSlashPos - 1) in
  let parts := split "-" locale in
  mkParsed (part parts 0 toLowerCase) (part parts 1 toUpperCase).

(** function parseLocale(locale): a string is parsed, an object is checked
    ([_.isString(locale.language)] holds for a locale object by its type). *)
Definition parseLocale (locale : string + Locale) : completion Locale :=
  match locale with
  | inl s =>
      let parsed := parseLocaleStr s in
      match p_language parsed with
      | Some l => Normal (mkLocale l (p_countryCode parsed))
      | None => Throw "locale.language is required"
      end
  | inr l => Normal l
  end.

(** Localization.isSupported(locale) *)
Definition isSupported (locale : jsval) (st : LocState) : completion bool :=
  match locale with
  | JStr s =>
      if Nat.eqb (String.length s) 0 then Normal false
      else
        let localeObj := parseLocaleStr s in
        name <- formatLocale (p_language localeObj) (p_countryCode localeObj) ;;
        Normal (match get_own (supportedLookup st) name with
                | Some _ => true
                | None => false
                end)
  | _ => Normal false
  end.

(** function assertOptions(options): [None] stands for an [options] that is
    not an object, [Some plugin] for an object with that [plugin] field. *)
Definition assertOptions (options : option jsval) : completion jsval :=
  match options with
  | None => Throw "options parameter is required"
  | Some plugin =>
      if isString plugin then Normal plugin else Throw "options.plugin is required"
  end.

(** The calls below take the locale as the callers give it, a string or an
    object, and go through parseLocale first. *)
Definition with_locale (locale : string + Locale)
    (f : Locale -> LocState -> completion bool * LocState) (st : LocState)
  : completion bool * LocState :=
  match parseLocale locale with
  | Normal l => f l st
  | Throw m => (Throw m, st)
  end.

(** Localization.registerLocalization(locale, key, value, options) *)
Definition registerLocalization (locale : string + Locale) (key value : string)
    (options : option jsval) (st : LocState) : completion bool * LocState :=
  match assertOptions options with
  | Throw m => (Throw m, st)
  | Normal plugin =>
      with_locale locale (fun l => _registerLocalization l key value plugin) st
  end.

(** Localization.registerLocale(locale, localizations, options) *)
Definition registerLocale (silly : bool) (locale : string + Locale) (localizations : jsval)
    (options : option jsval) (st : LocState) : completion bool * LocState :=
  match assertOptions options with
  | Throw m => (Throw m, st)
  | Normal plugin =>
      with_locale locale (fun l => _registerLocale silly l localizations plugin) st
  end.


(** The character occurs in the string. *)
Fixpoint has_char (ch : ascii) (s : string) : bool :=
  match s with
  | EmptyString => false
  | String c r => orb (Ascii.eqb c ch) (has_char ch r)
  end.

(** Localization.unregisterLocale with the locale as its callers give it. *)
Definition unregisterLocale_of (locale : string + Locale) (plugin : jsval) (st : LocState)
  : completion bool * LocState :=
  with_locale locale (fun l => unregisterLocale l plugin) st.

(** ** Slots, levels and leaves *)

(** Two locale objects with the same language and the same country code. *)
Definition same_locale (a b : Locale) : bool := negb (locale_differs a b).





(** ** The cache of an instance *)


(** Two caches agree on every key but one. *)
Definition agree_off (key : string) (c c' : props) : Prop :=
  forall key', key' <> key -> get_own c' key' = get_own c key'.

(** ** Templates *)

(** [prev] is a percent sign. *)
Definition is_percent (prev : option ascii) : bool :=
  match prev with Some p => Ascii.eqb p "%" | None => false end.

(** Every opening brace of the string stands right after a percent sign;
    [prev] is the character before the string. *)
Fixpoint braces_escaped (prev : option ascii) (s : string) : bool :=
  match s with
  | EmptyString => true
  | String c r =>
      andb (orb (negb (Ascii.eqb c "{")) (is_percent prev)) (braces_escaped (Some c) r)
  end.

(** The last character of [s], or [prev] when [s] is empty. *)
Fixpoint last_char (prev : option ascii) (s : string) : option ascii :=
  match s with
  | EmptyString => prev
  | String c r => last_char (Some c) r
  end.

(** A localization value cut into literal text and named parameters. *)
Inductive piece : Type :=
| Text (s : string)
| Param (name : string).

Definition template := list piece.

(** The value as it is registered: a parameter is written in braces. *)
Fixpoint template_string (t : template) : string :=
  match t with
  | [] => EmptyString
  | Text s :: r => s ++ template_string r
  | Param name :: r => String "{" (name ++ String "}" (template_string r))
  end.

(** [params[variable] || defaultVal || variable], as a string. *)
Definition param_value (params defaultVal : jsval) (name : string) : string :=
  to_string (js_or (js_or (getp params name) defaultVal) (JStr name)).

(** The value with every parameter replaced. *)
Fixpoint template_value (params defaultVal : jsval) (t : template) : string :=
  match t with
  | [] => EmptyString
  | Text s :: r => s ++ template_value params defaultVal r
  | Param name :: r => param_value params defaultVal name ++ template_value params defaultVal r
  end.

(** The cut is the one the scanner makes: text holds no opening brace
    except after a percent sign, a parameter does not follow a percent sign
    and its name holds no closing brace. *)
Fixpoint template_ok (prev : option ascii) (t : template) : bool :=
  match t with
  | [] => true
  | Text s :: r => andb (braces_escaped prev s) (template_ok (last_char prev s) r)
  | Param name :: r =>
      andb (andb (negb (is_percent prev)) (negb (has_char "}" name)))
           (template_ok (Some "}"%char) r)
  end.

(** The character the scanner has seen last after the template. *)
Fixpoint template_last (prev : option ascii) (t : template) : option ascii :=
  match t with
  | [] => prev
  | Text s :: r => template_last (last_char prev s) r
  | Param _ :: r => template_last (Some "}"%char) r
  end.

(** ** Names every object inherits *)

(** The members of Object.prototype.  A plain object answers a read of one
    of these names with the inherited member unless it has an own property
    of that name, and [__proto__] is an accessor; the embedding reads and
    writes own properties only, so a statement about a call that goes
    through a name chosen by the caller asks for a name outside this list. *)
Definition object_prototype_names : list string :=
  ["constructor"; "__defineGetter__"; "__defineSetter__"; "hasOwnProperty";
   "__lookupGetter__"; "__lookupSetter__"; "isPrototypeOf"; "propertyIsEnumerable";
   "toString"; "valueOf"; "__proto__"; "toLocaleString"].

Definition inherited (name : string) : bool :=
  existsb (String.eqb name) object_prototype_names.

(** A name that only an own property answers to. *)
Definition own_name (name : string) : Prop := inherited name = false.

(** The markers of a locale are such names, and its country code is not one
    of the two slot names. *)
Definition locale_own (l : Locale) : Prop :=
  own_name (k (language l)) /\
  match countryCode l with
  | Some cc => own_name (k cc) /\ reserved cc = false
  | None => True
  end.

(** [options.plugin], when it is a string, is such a name. *)
Definition plugin_own (plugin : jsval) : Prop :=
  match plugin with
  | JStr name => own_name name
  | _ => True
  end.


(** ** The parameters a value asks for *)





(** ** Own-property lists *)

Section OwnPropertyFacts.
Context {A : Type}.
Implicit Types (ps : list (string * A)) (p q : string) (v : A).

Lemma get_own_set_own_eq ps p v : get_own (set_own ps p v) p = Some v.
Proof.
  induction ps as [|[q w] rest IH]; simpl.
  - now rewrite String.eqb_refl.
  - destruct (String.eqb q p) eqn:E; simpl; rewrite E; auto.
Qed.

Lemma get_own_set_own_neq ps p q v :
  p <> q -> get_own (set_own ps p v) q = get_own ps q.
Proof.
  intros Hne. induction ps as [|[r w] rest IH]; simpl.
  - destruct (String.eqb p q) eqn:E; auto.
    apply String.eqb_eq in E. contradiction.
  - destruct (String.eqb r p) eqn:E; simpl.
    + apply String.eqb_eq in E. subst r.
      destruct (String.eqb p q) eqn:E2; auto.
      apply String.eqb_eq in E2. contradiction.
    + now rewrite IH.
Qed.

Lemma get_own_del_own_eq ps p : get_own (del_own ps p) p = None.
Proof.
  induction ps as [|[q w] rest IH]; simpl; auto.
  destruct (String.eqb q p) eqn:E; simpl; auto. now rewrite E.
Qed.

Lemma get_own_del_own_neq ps p q :
  p <> q -> get_own (del_own ps p) q = get_own ps q.
Proof.
  intros Hne. induction ps as [|[r w] rest IH]; simpl; auto.
  destruct (String.eqb r p) eqn:E; simpl.
  - apply String.eqb_eq in E. subst r.
    destruct (String.eqb p q) eqn:E2; auto.
    apply String.eqb_eq in E2. contradiction.
  - now rewrite IH.
Qed.

Lemma set_own_same ps p v : get_own ps p = Some v -> set_own ps p v = ps.
Proof.
  induction ps as [|[q w] rest IH]; simpl; [discriminate|].
  destruct (String.eqb q p) eqn:E.
  - intros [= ->]. reflexivity.
  - intros H. now rewrite IH.
Qed.
End OwnPropertyFacts.

Lemma getp_setp_eq ps p v : getp (JObj (set_own ps p v)) p = v.
Proof. simpl. now rewrite get_own_set_own_eq. Qed.

Lemma getp_setp_neq ps p q v :
  p <> q -> getp (JObj (set_own ps p v)) q = getp (JObj ps) q.
Proof. intros H. simpl. now rewrite get_own_set_own_neq. Qed.

Lemma getp_delp_eq o p : getp (delp o p) p = JUndef.
Proof. destruct o; simpl; auto. now rewrite get_own_del_own_eq. Qed.

Lemma with_cache_same self : with_cache self (cache self) = self.
Proof. now destruct self. Qed.

(** ** formatLocale *)

(** With a string for language the call gets as far as the guard on the
    country code and ends there. *)
Lemma formatLocale_string l cc :
  formatLocale (Some l) cc = Throw "TypeError: _.isNullOrUndefined is not a function".
Proof. reflexivity. Qed.

(** ** Enumeration visits every own property *)

Section EnumerationFacts.
Context {A : Type}.
Implicit Types (ps : list (string * A)).

Lemma insert_index_perm (x : N * (string * A)) l : Permutation (insert_index x l) (x :: l).
Proof.
  induction l as [|y rest IH]; simpl; auto.
  destruct (N.leb (fst x) (fst y)); auto.
  rewrite IH. apply perm_swap.
Qed.

Lemma own_entries_perm ps : Permutation (own_entries ps) ps.
Proof.
  unfold own_entries. induction ps as [|[q v] rest IH]; simpl; auto.
  destruct (array_index q) as [n|].
  - rewrite (Permutation_map snd (insert_index_perm (n, (q, v)) (index_entries rest))).
    simpl. now constructor.
  - rewrite <- Permutation_middle. now constructor.
Qed.


End EnumerationFacts.

(** ** Reading and writing properties *)

Lemma bindc_normal {A B} (c : completion A) (f : A -> completion B) b :
  bindc c f = Normal b -> exists a, c = Normal a /\ f a = Normal b.
Proof. destruct c; simpl; [eauto|discriminate]. Qed.

Lemma put_normal o p v o' :
  put o p v = Normal o' -> exists ps, o' = JObj ps /\ get_own ps p = Some v.
Proof.
  destruct o; simpl; try discriminate. intros [= <-].
  eexists. split; [reflexivity|apply get_own_set_own_eq].
Qed.

Lemma getp_own ps p v : get_own ps p = Some v -> getp (JObj ps) p = v.
Proof. intros H. simpl. now rewrite H. Qed.

Lemma put_same o p v o' : put o p v = Normal o' -> getp o' p = v.
Proof. intros H. apply put_normal in H as (ps & -> & H). now apply getp_own. Qed.

Lemma put_other o p v o' q : put o p v = Normal o' -> p <> q -> getp o' q = getp o q.
Proof.
  destruct o; simpl; try discriminate. intros [= <-] Hne.
  simpl. now rewrite get_own_set_own_neq.
Qed.

Lemma put_object o p v o' : put o p v = Normal o' -> isObject o = true /\ isObject o' = true.
Proof. destruct o; simpl; try discriminate. intros [= <-]. auto. Qed.

Lemma getp_nil o p : isNil o = true -> getp o p = JUndef.
Proof. destruct o; simpl; auto; discriminate. Qed.

Lemma ensure_same o p o' : ensure o p = Normal o' -> getp o' p = or_empty (getp o p).
Proof.
  unfold ensure, get, or_empty. destruct (isNil o); [discriminate|]. cbn [bindc].
  destruct (isNil (getp o p)) eqn:E.
  - apply put_same.
  - now intros [= <-].
Qed.

Lemma ensure_other o p o' q : ensure o p = Normal o' -> p <> q -> getp o' q = getp o q.
Proof.
  unfold ensure, get. destruct (isNil o); [discriminate|]. cbn [bindc].
  destruct (isNil (getp o p)) eqn:E.
  - apply put_other.
  - now intros [= <-].
Qed.

Lemma setp_same o p v : isObject o = true -> getp (setp o p v) p = v.
Proof. destruct o; try discriminate. intros _. apply getp_setp_eq. Qed.

Lemma setp_other o p v q : p <> q -> getp (setp o p v) q = getp o q.
Proof. destruct o; auto. intros H. now apply getp_setp_neq. Qed.

Lemma setp_object o p v : isObject o = true -> isObject (setp o p v) = true.
Proof. destruct o; auto. Qed.

Lemma delp_other o p q : p <> q -> getp (delp o p) q = getp o q.
Proof. destruct o; auto. intros H. simpl. now rewrite get_own_del_own_neq. Qed.

Lemma delp_object o p : isObject o = true -> isObject (delp o p) = true.
Proof. destruct o; auto. Qed.

Lemma getp_object o p : isNil (getp o p) = false -> isObject o = true.
Proof. destruct o; auto. Qed.

(** ** The interpolator *)

Lemma has_param_span_closing m b :
  no_brace m = true -> has_param_span (m ++ String "}" b) true = true.
Proof.
  induction m as [|c m IH]; simpl; auto.
  intros H. apply andb_true_iff in H as [Hc Hm].
  apply negb_true_iff, orb_false_iff in Hc as [-> ->]. auto.
Qed.

Lemma has_param_span_match a m b opened :
  no_brace m = true ->
  has_param_span (a ++ String "{" (m ++ String "}" b)) opened = true.
Proof.
  intros Hm. revert opened. induction a as [|c a IH]; intros opened; simpl.
  - now apply has_param_span_closing.
  - destruct (Ascii.eqb c "{"); auto.
    destruct (Ascii.eqb c "}"); auto. destruct opened; auto.
Qed.

Lemma has_param_span_inv s opened :
  has_param_span s opened = true ->
  (opened = true /\ exists m b, s = m ++ String "}" b /\ no_brace m = true)
  \/ has_match s.
Proof.
  revert opened. induction s as [|c s IH]; intros opened; simpl; [discriminate|].
  destruct (Ascii.eqb c "{") eqn:Eo.
  - apply Ascii.eqb_eq in Eo. subst c. intros H.
    right. destruct (IH _ H) as [[_ (m & b & -> & Hm)]|(a & m & b & -> & Hm)].
    + exists EmptyString, m, b. auto.
    + exists (String "{" a), m, b. auto.
  - destruct (Ascii.eqb c "}") eqn:Ec.
    + apply Ascii.eqb_eq in Ec. subst c. destruct opened.
      * intros _. left. split; auto. exists EmptyString, s. auto.
      * intros H. right.
        destruct (IH _ H) as [[Hf _]|(a & m & b & -> & Hm)]; [discriminate|].
        exists (String "}" a), m, b. auto.
    + intros H. destruct (IH _ H) as [[-> (m & b & -> & Hm)]|(a & m & b & -> & Hm)].
      * left. split; auto. exists (String c m), b. split; auto.
        simpl. now rewrite Eo, Ec.
      * right. exists (String c a), m, b. auto.
Qed.

(** X22: containsParameters answers whether the regular expression has a
    match: it returns true exactly for the values that hold an opening
    brace, a run of characters without braces and a closing brace. *)
Lemma containsParameters_spec s : containsParameters s = true <-> has_match s.
Proof.
  unfold containsParameters. split.
  - intros H. destruct (has_param_span_inv _ _ H) as [[Hf _]|Hm]; [discriminate|auto].
  - intros (a & m & b & -> & Hm). now apply has_param_span_match.
Qed.

(** C4, as the code has it: "Hello {name}" with name = "World" gives
    "Hello World"; "{a}{b}" with only a = "x" gives "xb", the missing
    parameter being replaced by its own name and nothing standing between
    the two; "plain text" holds no parameter. *)
Theorem interpolator_examples :
  replaceParameters (JStr "Hello {name}") (JObj [("name", JStr "World")]) JUndef
    = Normal "Hello World"
  /\ replaceParameters (JStr "{a}{b}") (JObj [("a", JStr "x")]) JUndef = Normal "xb"
  /\ containsParameters "plain text" = false.
Proof. repeat split; reflexivity. Qed.

(** The second example of C4 as the claim words it does not hold: the result
    has no blank between the two substitutions. *)
Lemma interpolator_no_blank :
  replaceParameters (JStr "{a}{b}") (JObj [("a", JStr "x")]) JUndef <> Normal "x b".
Proof. vm_compute. discriminate. Qed.

(** ** Lookup of a key that is not in the storage *)



(** ** The per-instance cache *)

(** C9: when the cache of an instance holds a value block for a key that is
    still in the storage, g answers from the cache: the value block is
    interpolated with the parameters of the current call, the cache is
    unchanged, and neither [options.plugin] nor the storage below the key
    takes part. *)
Theorem g_reuses_cached_value :
  forall defaultLocale sto key options self value parameterized,
    key_absent sto key = false ->
    isObject (params_of (options_or_default options)) = true ->
    get_own (cache self) key =
      Some (JObj [("value", JStr value); ("isParameterized", JBool parameterized)]) ->
    g defaultLocale sto key options self =
      (Normal (JStr (if parameterized
                     then interpolate value (params_of (options_or_default options))
                            (opt_defaultParamVal (options_or_default options))
                     else value)),
       self).
Proof.
  intros dl sto key options self value b Hpresent Hparams Hcache.
  unfold g. rewrite Hparams, Hpresent. simpl negb. cbv iota.
  assert (Hget : getp (JObj (cache self)) key =
                 JObj [("value", JStr value); ("isParameterized", JBool b)])
    by (simpl; now rewrite Hcache).
  rewrite Hget. simpl truthy. cbv iota.
  unfold processValue. rewrite (set_own_same _ _ _ Hcache).
  destruct b; simpl.
  - destruct (params_of (options_or_default options)); try discriminate.
    simpl. now rewrite with_cache_same.
  - now rewrite with_cache_same.
Qed.

(** The first call went through the shop plugin; the second names the blog
    plugin and still gets the shop value, with its own parameters. *)
Lemma g_reuses_cached_value_witness :
  g en_US (storage themed) "greeting" shop_call visitor
    = (Normal (JStr "Howdy from Ada"), returning_visitor) /\
  g en_US (storage themed) "greeting" blog_call returning_visitor
    = (Normal (JStr "Howdy from Bob"), returning_visitor).
Proof.
  split; [reflexivity|].
  apply (g_reuses_cached_value en_US (storage themed) "greeting" blog_call
           returning_visitor "Howdy from {name}" true); reflexivity.
Defined.

(** ** The walk of a fresh instance *)






(** With no country block for the instance's country, the language block
    decides. *)
Lemma g_language_level defaultLocale sto key options lang cc theme s c :
  isObject (params_of (options_or_default options)) = true ->
  isObject (level_block sto (mkLocale lang None) key) = true ->
  isNil (level_block sto (mkLocale lang (Some cc)) key) = true ->
  processKeyBlock key (params_of (options_or_default options))
    (opt_defaultParamVal (options_or_default options))
    (js_or (opt_plugin (options_or_default options)) theme)
    (level_block sto (mkLocale lang None) key) [] = (Normal (JStr s), c) ->
  g defaultLocale sto key options (new_instance (mkLocale lang (Some cc)) theme) =
    (Normal (JStr s), mkInstance (mkLocale lang (Some cc)) c theme).
Proof.
  intros Hparams Hobj Hnil Hwalk. unfold g. rewrite Hparams.
  unfold level_block, key_absent, findKeyBlock, new_instance in *.
  cbn [negb andb snd cache localeObj activeTheme with_cache language countryCode] in *.
  destruct (getp (JObj sto) key) as [| | | | |kb] eqn:Hkb; try discriminate Hobj.
  change (getp (JObj []) key) with JUndef. cbn [truthy negb].
  unfold processLanguageBlock. cbn [countryCode].
  rewrite Hobj, Hnil. cbn [negb]. rewrite Hwalk. reflexivity.
Qed.

(** ** Precedence inside a block *)



(** ** What a registration leaves *)

(** The key block a registration hands back is an object. *)
Lemma insert_at_object locale plugin vb keyBlock keyBlock' :
  insert_at locale plugin vb keyBlock = Normal keyBlock' -> isObject keyBlock' = true.
Proof.
  unfold insert_at.
  destruct (ensure keyBlock (k (language locale))) as [kb|]; [|discriminate].
  cbn [bindc].
  destruct (get kb (k (language locale))) as [lb|]; [|discriminate].
  cbn [bindc].
  match goal with |- bindc ?c _ = _ -> _ => destruct c as [lb'|]; [|discriminate] end.
  cbn [bindc]. destruct kb; simpl; try discriminate.
  now intros [= <-].
Qed.



(** For a key that is not in the storage yet the registration returns true:
    every block on the way is created by the call itself. *)
Lemma registerLocalization_fresh_key locale key value plugin st :
  get_own (storage st) key = None ->
  exists st1, _registerLocalization locale key value plugin st = (Normal true, st1).
Proof.
  intros Hfresh. unfold _registerLocalization, findKeyBlock.
  cbn [andb]. replace (getp (JObj (storage st)) key) with JUndef
    by (simpl; now rewrite Hfresh).
  cbn [isUndefined]. rewrite getp_setp_eq.
  unfold insert_at, ensure, get. cbn [isNil getp get_own bindc put set_own].
  rewrite String.eqb_refl. cbn [isNil bindc put set_own].
  destruct (countryCode locale) as [cc|]; cbn [isNil getp get_own bindc put set_own].
  - rewrite String.eqb_refl. cbn [isNil bindc].
    destruct plugin; cbn [insert_value put bindc set_own]; eauto.
    unfold ensure, get. cbn [isNil getp get_own bindc put set_own String.eqb Ascii.eqb Bool.eqb].
    eauto.
  - destruct plugin; cbn [insert_value put bindc set_own]; eauto.
    unfold ensure, get. cbn [isNil getp get_own bindc put set_own String.eqb Ascii.eqb Bool.eqb].
    eauto.
Qed.

(** ** Well-formed storage is kept *)

Lemma level_block_block_at sto locale key :
  level_block sto locale key = block_at (getp (JObj sto) key) locale.
Proof. reflexivity. Qed.

Lemma k_inj a b : k a = k b -> a = b.
Proof. unfold k. simpl. now intros [= ->]. Qed.

Lemma k_not_default cc : reserved cc = false -> k cc <> "__default".
Proof.
  unfold reserved. intros H E. change "__default" with (k "default") in E.
  apply k_inj in E. subst. discriminate.
Qed.

Lemma k_not_plugins cc : reserved cc = false -> k cc <> "__plugins".
Proof.
  unfold reserved. intros H E. change "__plugins" with (k "plugins") in E.
  apply k_inj in E. subst. simpl in H. discriminate.
Qed.

Lemma slots_well_formed_ext block block' :
  getp block' "__default" = getp block "__default" ->
  getp block' "__plugins" = getp block "__plugins" ->
  slots_well_formed block -> slots_well_formed block'.
Proof.
  unfold slots_well_formed, plugins_block_ok, plugin_slot, default_slot.
  intros -> ->. auto.
Qed.

Lemma slots_well_formed_empty : slots_well_formed (JObj []).
Proof.
  unfold slots_well_formed, plugins_block_ok, plugin_slot, default_slot, slot_ok.
  simpl. auto.
Qed.

Lemma level_ok_or_empty block :
  level_ok block -> isObject (or_empty block) = true /\ slots_well_formed (or_empty block).
Proof.
  unfold level_ok, or_empty. intros [H|[H1 H2]].
  - rewrite H. split; [reflexivity|apply slots_well_formed_empty].
  - destruct block; try discriminate. auto.
Qed.

Lemma slot_ok_valueBlock value : slot_ok (valueBlock value).
Proof. right. eauto. Qed.

Lemma slot_ok_undefined : slot_ok JUndef.
Proof. now left. Qed.

(** insert_value touches the two slots only. *)
Lemma insert_value_other block plugin vb block' q :
  insert_value block plugin vb = Normal block' ->
  q <> "__default" -> q <> "__plugins" -> getp block' q = getp block q.
Proof.
  intros H Hq1 Hq2.
  assert (Hcase : (exists name, plugin = JStr name) \/
                  insert_value block plugin vb = put block "__default" vb).
  { destruct plugin; eauto. }
  destruct Hcase as [[name ->]|Hput].
  - unfold insert_value in H.
    apply bindc_normal in H as (ib & Hib & H).
    apply bindc_normal in H as (pb & _ & H).
    apply bindc_normal in H as (pb' & _ & H).
    rewrite (put_other _ _ _ _ q H) by congruence.
    now rewrite (ensure_other _ _ _ q Hib) by congruence.
  - rewrite Hput in H. apply (put_other _ _ _ _ q H). congruence.
Qed.

(** insert_value keeps a block well formed. *)
Lemma insert_value_preserves block plugin value block' :
  insert_value block plugin (valueBlock value) = Normal block' ->
  slots_well_formed block ->
  isObject block' = true /\ slots_well_formed block'.
Proof.
  intros H (Hpb & Hplugins & Hdefault).
  assert (Hcase : (exists name, plugin = JStr name) \/
                  insert_value block plugin (valueBlock value)
                    = put block "__default" (valueBlock value)).
  { destruct plugin; eauto. }
  destruct Hcase as [[name ->]|Hput].
  - unfold insert_value in H.
    apply bindc_normal in H as (ib & Hib & H).
    apply bindc_normal in H as (pb & Hget & H).
    apply bindc_normal in H as (pb' & Hpb' & H).
    assert (Hpbv : pb = or_empty (getp block "__plugins")).
    { unfold get in Hget. destruct (isNil ib); [discriminate|].
      injection Hget as <-. now apply ensure_same. }
    split; [apply (put_object _ _ _ _ H)|].
    unfold slots_well_formed, plugins_block_ok, plugin_slot, default_slot.
    rewrite (put_same _ _ _ _ H).
    rewrite (put_other _ _ _ _ "__default" H) by discriminate.
    rewrite (ensure_other _ _ _ "__default" Hib) by discriminate.
    split; [right; apply (put_object _ _ _ _ Hpb')|]. split; [|exact Hdefault].
    intros q. destruct (string_dec name q) as [->|Hne].
    + rewrite (put_same _ _ _ _ Hpb'). apply slot_ok_valueBlock.
    + rewrite (put_other _ _ _ _ q Hpb' Hne), Hpbv. unfold or_empty.
      destruct (isNil (getp block "__plugins")); [apply slot_ok_undefined|apply Hplugins].
  - rewrite Hput in H.
    split; [apply (put_object _ _ _ _ H)|].
    unfold slots_well_formed, plugins_block_ok, plugin_slot, default_slot.
    rewrite (put_same _ _ _ _ H).
    rewrite (put_other _ _ _ _ "__plugins" H) by discriminate.
    split; [exact Hpb|]. split; [exact Hplugins|apply slot_ok_valueBlock].
Qed.

Lemma level_ok_object block :
  isObject block = true -> slots_well_formed block -> level_ok block.
Proof. intros. right. auto. Qed.

Lemma getp_or_empty block q : getp (or_empty block) q = getp block q.
Proof.
  unfold or_empty. destruct (isNil block) eqn:E; auto.
  now rewrite (getp_nil _ _ E).
Qed.

(** The walk of a registration keeps every level of the key block well
    formed. *)
Lemma insert_at_preserves locale' plugin value keyBlock keyBlock' :
  locale_normal locale' ->
  insert_at locale' plugin (valueBlock value) keyBlock = Normal keyBlock' ->
  forall locale, locale_normal locale ->
    level_ok (block_at keyBlock locale) -> level_ok (block_at keyBlock' locale).
Proof.
  intros Hn' H locale Hn Hok. unfold insert_at in H.
  apply bindc_normal in H as (kb & Hkb & H).
  apply bindc_normal in H as (lb & Hlb & H).
  apply bindc_normal in H as (lb' & Hins & H).
  assert (Hlbv : lb = or_empty (getp keyBlock (k (language locale')))).
  { unfold get in Hlb. destruct (isNil kb); [discriminate|].
    injection Hlb as <-. now apply ensure_same. }
  unfold block_at in *.
  destruct (string_dec (language locale') (language locale)) as [El|Nl].
  2:{ rewrite (put_other _ _ _ _ _ H), (ensure_other _ _ _ _ Hkb); auto;
        intros E; apply k_inj in E; contradiction. }
  rewrite <- El in *. rewrite (put_same _ _ _ _ H).
  unfold locale_normal in Hn, Hn'.
  destruct (countryCode locale') as [cc'|].
  - apply bindc_normal in Hins as (lb1 & Hlb1 & Hins).
    apply bindc_normal in Hins as (cb & Hcb & Hins).
    apply bindc_normal in Hins as (cb' & Hcb' & Hins).
    assert (Hcbv : cb = or_empty (getp lb (k cc'))).
    { unfold get in Hcb. destruct (isNil lb1); [discriminate|].
      injection Hcb as <-. now apply ensure_same. }
    destruct (countryCode locale) as [cc|].
    + destruct (string_dec cc' cc) as [->|Nc].
      * rewrite (put_same _ _ _ _ Hins).
        rewrite Hlbv, getp_or_empty in Hcbv.
        destruct (level_ok_or_empty _ Hok) as [_ Hwf]. rewrite <- Hcbv in Hwf.
        destruct (insert_value_preserves _ _ _ _ Hcb' Hwf) as (Ho & Hw).
        now apply level_ok_object.
      * rewrite (put_other _ _ _ _ _ Hins), (ensure_other _ _ _ _ Hlb1), Hlbv, getp_or_empty;
          auto; intros E; apply k_inj in E; contradiction.
    + destruct (level_ok_or_empty _ Hok) as [_ Hwf]. rewrite <- Hlbv in Hwf.
      apply level_ok_object; [apply (put_object _ _ _ _ Hins)|].
      apply (slots_well_formed_ext lb); auto.
      * rewrite (put_other _ _ _ _ _ Hins), (ensure_other _ _ _ _ Hlb1); auto;
          now apply k_not_default.
      * rewrite (put_other _ _ _ _ _ Hins), (ensure_other _ _ _ _ Hlb1); auto;
          now apply k_not_plugins.
  - destruct (countryCode locale) as [cc|].
    + rewrite (insert_value_other _ _ _ _ (k cc) Hins), Hlbv, getp_or_empty; auto;
        [now apply k_not_default | now apply k_not_plugins].
    + destruct (level_ok_or_empty _ Hok) as [_ Hwf]. rewrite <- Hlbv in Hwf.
      destruct (insert_value_preserves _ _ _ _ Hins Hwf) as (Ho & Hw).
      now apply level_ok_object.
Qed.

Lemma key_block_ok_empty : key_block_ok (JObj []).
Proof.
  split; [now right|].
  intros locale _. unfold block_at. left.
  destruct (countryCode locale); reflexivity.
Qed.

Lemma storage_ok_set sto key keyBlock :
  storage_ok sto -> key_block_ok keyBlock -> storage_ok (set_own sto key keyBlock).
Proof.
  intros Hsto Hkb key0. destruct (string_dec key key0) as [->|Hne].
  - now rewrite getp_setp_eq.
  - rewrite getp_setp_neq by auto. apply Hsto.
Qed.

(** _registerLocalization keeps the storage well formed. *)
Lemma registerLocalization_ok locale key value plugin st :
  locale_normal locale ->
  storage_ok (storage st) ->
  storage_ok (storage (snd (_registerLocalization locale key value plugin st))).
Proof.
  intros Hn Hsto. unfold _registerLocalization, findKeyBlock. cbn [andb].
  set (sto := if isUndefined (getp (JObj (storage st)) key)
              then set_own (storage st) key (JObj []) else storage st).
  assert (Hsto' : storage_ok sto).
  { unfold sto. destruct (isUndefined _); auto.
    apply storage_ok_set; auto. apply key_block_ok_empty. }
  destruct (insert_at locale plugin (valueBlock value) (getp (JObj sto) key))
    as [keyBlock'|] eqn:Hins; cbn [snd storage with_storage]; auto.
  apply storage_ok_set; auto.
  split; [right; eapply insert_at_object; eauto|].
  intros locale0 Hn0.
  apply (insert_at_preserves locale plugin value (getp (JObj sto) key) keyBlock' Hn Hins
           locale0 Hn0).
  now apply Hsto'.
Qed.

Lemma slot_ok_not_string slot : slot_ok slot -> isString slot = false.
Proof. intros [H|[v ->]]; [destruct slot; auto; discriminate | reflexivity]. Qed.

Lemma level_ok_inv block :
  level_ok block -> isNil block = false -> isObject block = true /\ slots_well_formed block.
Proof. intros [H|H] Hn; auto. congruence. Qed.

Lemma plugins_block_not_string block :
  plugins_block_ok block -> isString (getp block "__plugins") = false.
Proof. intros [H|H]; destruct (getp block "__plugins"); auto; discriminate. Qed.

(** Deleting from a block a property that holds a string leaves its slots as
    they were. *)
Lemma delp_string_preserves block p :
  slots_well_formed block ->
  isString (getp block p) = true ->
  slots_well_formed (delp block p).
Proof.
  intros Hwf Hstr. apply (slots_well_formed_ext block); auto; apply delp_other; intros ->.
  - destruct Hwf as (_ & _ & Hd). apply slot_ok_not_string in Hd.
    unfold default_slot in Hd. congruence.
  - destruct Hwf as (Hp & _). apply plugins_block_not_string in Hp. congruence.
Qed.

Lemma delp_default_preserves block :
  slots_well_formed block -> slots_well_formed (delp block "__default").
Proof.
  intros (Hp & Hs & Hd).
  unfold slots_well_formed, plugins_block_ok, plugin_slot, default_slot.
  rewrite getp_delp_eq, delp_other by discriminate.
  split; [exact Hp|]. split; [exact Hs|apply slot_ok_undefined].
Qed.

(** Storing a changed country block back keeps the levels of the key block
    well formed. *)
Lemma store_country_ok keyBlock lang cc countryBlock' :
  reserved cc = false ->
  key_block_ok keyBlock ->
  isNil (getp (getp keyBlock (k lang)) (k cc)) = false ->
  isObject countryBlock' = true ->
  slots_well_formed countryBlock' ->
  key_block_ok (setp keyBlock (k lang) (setp (getp keyBlock (k lang)) (k cc) countryBlock')).
Proof.
  intros Hcc [_ Hkb] Hcb Ho Hwf.
  pose proof (getp_object _ _ Hcb) as Hlbo.
  assert (Hlbn : isNil (getp keyBlock (k lang)) = false)
    by (destruct (getp keyBlock (k lang)); auto; discriminate).
  pose proof (getp_object _ _ Hlbn) as Hkbo.
  split; [right; now apply setp_object|].
  intros locale Hn.
  pose proof (Hkb locale Hn) as Hold.
  unfold block_at in *.
  destruct (string_dec lang (language locale)) as [El|Nl].
  2:{ rewrite setp_other; [exact Hold|]. intros E. apply k_inj in E. contradiction. }
  rewrite <- El in *. rewrite setp_same by auto.
  unfold locale_normal in Hn. destruct (countryCode locale) as [cq|].
  - destruct (string_dec cc cq) as [<-|Nc].
    + rewrite setp_same by auto. now apply level_ok_object.
    + rewrite setp_other; [exact Hold|]. intros E. apply k_inj in E. contradiction.
  - destruct (level_ok_inv _ Hold Hlbn) as [_ Hlwf].
    apply level_ok_object; [now apply setp_object|].
    apply (slots_well_formed_ext (getp keyBlock (k lang))); auto;
      apply setp_other; [now apply k_not_default | now apply k_not_plugins].
Qed.

(** unregisterLocalization keeps the storage well formed. *)
Lemma unregisterLocalization_ok locale key plugin st :
  locale_normal locale ->
  storage_ok (storage st) ->
  storage_ok (storage (snd (unregisterLocalization locale key plugin st))).
Proof.
  intros Hn Hsto. unfold unregisterLocalization, findKeyBlock. cbn [andb snd].
  destruct (key_absent (storage st) key); auto.
  destruct (negb (truthy (getp (JObj (storage st)) key))); auto.
  set (keyBlock := getp (JObj (storage st)) key).
  assert (Hkb : key_block_ok keyBlock) by apply Hsto.
  destruct (isNil (getp keyBlock (k (language locale)))) eqn:Hlb; auto.
  unfold locale_normal in Hn.
  destruct (countryCode locale) as [cc|] eqn:Hcc.
  - pose proof (proj2 Hkb locale) as Hlevel. unfold block_at, locale_normal in Hlevel.
    rewrite Hcc in Hlevel. specialize (Hlevel Hn).
    destruct (isNil (getp (getp keyBlock (k (language locale))) (k cc))) eqn:Hcb;
      cbn [negb andb].
    + unfold get. rewrite Hcb. auto.
    + destruct (level_ok_inv _ Hlevel Hcb) as [Ho Hwf].
      destruct (isString plugin).
      * destruct (isString (getp (getp (getp keyBlock (k (language locale))) (k cc))
                               (to_string plugin))) eqn:Hstr; auto.
        cbn [snd storage with_storage]. apply storage_ok_set; auto.
        apply store_country_ok; auto.
        -- now apply delp_object.
        -- now apply delp_string_preserves.
      * unfold get. rewrite Hcb.
        destruct (isObject (getp (getp (getp keyBlock (k (language locale))) (k cc))
                              "__default")); auto.
        cbn [snd storage with_storage]. apply storage_ok_set; auto.
        apply store_country_ok; auto.
        -- now apply delp_object.
        -- now apply delp_default_preserves.
  - pose proof (proj2 Hkb locale) as Hlevel. unfold block_at, locale_normal in Hlevel.
    rewrite Hcc in Hlevel. specialize (Hlevel I).
    destruct (level_ok_inv _ Hlevel Hlb) as [Ho (Hp & Hs & Hd)].
    unfold plugin_slot in Hs. cbv zeta.
    rewrite (slot_ok_not_string _ (Hs (to_string plugin))).
    unfold default_slot in Hd. rewrite (slot_ok_not_string _ Hd).
    destruct (andb (isString plugin) (isObject (getp (getp keyBlock (k (language locale))) "__plugins")));
      auto.
Qed.

(** At the language level nothing is ever unregistered from a well-formed
    storage: both tests ask for a string where a value block sits. *)
Lemma unregister_language_level_noop lang key plugin st :
  storage_ok (storage st) ->
  unregisterLocalization (mkLocale lang None) key plugin st = (Normal false, st).
Proof.
  intros Hsto. unfold unregisterLocalization, findKeyBlock. cbn [andb snd language countryCode].
  destruct (key_absent (storage st) key); auto.
  destruct (negb (truthy (getp (JObj (storage st)) key))); auto.
  destruct (isNil (getp (getp (JObj (storage st)) key) (k lang))) eqn:Hlb; auto.
  pose proof (proj2 (Hsto key) (mkLocale lang None) I) as Hlevel.
  unfold block_at in Hlevel. cbn [language countryCode] in Hlevel.
  destruct (level_ok_inv _ Hlevel Hlb) as [Ho (Hp & Hs & Hd)].
  unfold plugin_slot in Hs. cbv zeta.
  rewrite (slot_ok_not_string _ (Hs (to_string plugin))).
  unfold default_slot in Hd. rewrite (slot_ok_not_string _ Hd).
  now destruct (andb (isString plugin) (isObject (getp (getp (getp (JObj (storage st)) key) (k lang)) "__plugins"))).
Qed.

Lemma storage_ok_empty : storage_ok (storage empty_state).
Proof.
  intros key. split; [now left|].
  intros locale _. left. unfold block_at. now destruct (countryCode locale).
Qed.

Lemma unregister_keys_ok locale plugin keys prev st :
  locale_normal locale ->
  storage_ok (storage st) ->
  storage_ok (storage (snd (unregister_keys locale plugin keys prev st))).
Proof.
  intros Hn. revert prev st. induction keys as [|key rest IH]; intros prev st H; simpl; auto.
  pose proof (unregisterLocalization_ok locale key plugin st Hn H) as H1.
  destruct (unregisterLocalization locale key plugin st) as [[removed|m] st']; simpl in *; auto.
Qed.

Lemma unregisterLocale_ok locale plugin st :
  locale_normal locale ->
  storage_ok (storage st) ->
  storage_ok (storage (snd (unregisterLocale locale plugin st))).
Proof.
  intros Hn H. unfold unregisterLocale.
  pose proof (unregister_keys_ok locale plugin (own_keys (storage st)) 0%Z st Hn H) as H1.
  destruct (unregister_keys locale plugin (own_keys (storage st)) 0 st) as [[n|m] st'];
    simpl in *; auto.
Qed.

Lemma register_queue_ok fuel locale plugin queue result st out :
  locale_normal locale ->
  storage_ok (storage st) ->
  register_queue fuel locale plugin queue result st = Some out ->
  storage_ok (storage (snd out)).
Proof.
  intros Hn. revert queue result st.
  induction fuel as [|fuel IH]; intros queue result st H; destruct queue as [|[key v] rest];
    simpl; try discriminate; try (intros [= <-]; exact H).
  destruct v; try (apply IH; exact H); try (intros [= <-]; exact H).
  destruct result; [|apply IH; exact H].
  pose proof (registerLocalization_ok locale key s plugin st Hn H) as H1.
  destruct (_registerLocalization locale key s plugin st) as [[r|m] st']; simpl in H1.
  - apply IH; exact H1.
  - intros [= <-]. exact H1.
Qed.

Lemma registerLocale_ok silly locale localizations plugin st :
  locale_normal locale ->
  storage_ok (storage st) ->
  storage_ok (storage (snd (_registerLocale silly locale localizations plugin st))).
Proof.
  intros Hn H. unfold _registerLocale.
  destruct (negb (isObject localizations)); auto.
  destruct silly; [exact H|].
  destruct (register_queue (weight localizations) locale plugin
              (processObj None localizations) true st) as [[[r|m] st']|] eqn:Hq; auto.
  - apply (register_queue_ok _ _ _ _ _ _ _ Hn H) in Hq.
    destruct (andb r (negb (isSupported_object locale))); exact Hq.
  - apply (register_queue_ok _ _ _ _ _ _ _ Hn H) in Hq. exact Hq.
Qed.

Lemma run_ok op st :
  operation_normal op -> storage_ok (storage st) -> storage_ok (storage (run op st)).
Proof.
  destruct op; simpl.
  - apply registerLocalization_ok.
  - apply registerLocale_ok.
  - apply unregisterLocalization_ok.
  - apply unregisterLocale_ok.
Qed.

(** Every storage built from the empty one by calls with regular locales is
    well formed. *)
Lemma run_all_ok ops st :
  Forall operation_normal ops -> storage_ok (storage st) ->
  storage_ok (storage (run_all ops st)).
Proof.
  intros Hops. revert st. induction Hops as [|op rest Hop _ IH]; intros st H; simpl; auto.
  apply IH. now apply run_ok.
Qed.

Lemma storage_ok_level sto locale key :
  storage_ok sto -> locale_normal locale ->
  isNil (level_block sto locale key) = false ->
  slots_well_formed (level_block sto locale key).
Proof.
  intros Hsto Hn Hnn. rewrite level_block_block_at in *.
  now destruct (level_ok_inv _ (proj2 (Hsto key) locale Hn) Hnn).
Qed.

(** In a well-formed storage, an unregistration that names a plugin leaves
    the default slot where it is. *)
Lemma unregister_plugin_keeps_default locale key name st :
  locale_normal locale ->
  storage_ok (storage st) ->
  default_slot (level_block (storage (snd (unregisterLocalization locale key (JStr name) st)))
                  locale key)
  = default_slot (level_block (storage st) locale key).
Proof.
  intros Hn Hsto.
  destruct locale as [lang [cc|]]; [|now rewrite unregister_language_level_noop].
  unfold unregisterLocalization, findKeyBlock. cbn [andb snd language countryCode isString to_string].
  destruct (key_absent (storage st) key); auto.
  destruct (negb (truthy (getp (JObj (storage st)) key))); auto.
  destruct (isNil (getp (getp (JObj (storage st)) key) (k lang))) eqn:Hlb; auto.
  destruct (isNil (getp (getp (getp (JObj (storage st)) key) (k lang)) (k cc))) eqn:Hcb;
    cbn [negb andb].
  - unfold get. now rewrite Hcb.
  - destruct (isString (getp (getp (getp (getp (JObj (storage st)) key) (k lang)) (k cc)) name))
      eqn:Hstr; auto.
    cbn [snd storage with_storage]. unfold level_block, default_slot.
    cbn [language countryCode].
    pose proof (getp_object _ _ Hcb) as Hlbo.
    pose proof (getp_object _ _ Hlb) as Hkbo.
    rewrite getp_setp_eq, !setp_same by auto.
    apply delp_other. intros ->.
    pose proof (storage_ok_level (storage st) (mkLocale lang (Some cc)) key Hsto Hn Hcb)
      as (_ & _ & Hd).
    apply slot_ok_not_string in Hd. unfold default_slot, level_block in Hd.
    cbn [language countryCode] in Hd. congruence.
Qed.

Lemma ensure_object o p :
  isObject o = true ->
  exists o', ensure o p = Normal o' /\ isObject o' = true.
Proof.
  destruct o; try discriminate. intros _. unfold ensure, get. cbn [isNil bindc].
  destruct (isNil (getp (JObj ps) p)); simpl; eauto.
Qed.

Lemma get_object o p : isObject o = true -> get o p = Normal (getp o p).
Proof. destruct o; try discriminate. reflexivity. Qed.

Lemma put_returns o p v : isObject o = true -> exists o', put o p v = Normal o'.
Proof. destruct o; try discriminate. simpl. eauto. Qed.

Lemma plugins_block_or_empty block :
  plugins_block_ok block -> isObject (or_empty (getp block "__plugins")) = true.
Proof.
  unfold plugins_block_ok, or_empty. intros [H|H].
  - now rewrite H.
  - destruct (getp block "__plugins"); try discriminate. reflexivity.
Qed.

(** On a well-formed block insert_value returns. *)
Lemma insert_value_returns block plugin vb :
  isObject block = true ->
  plugins_block_ok block ->
  exists block', insert_value block plugin vb = Normal block'.
Proof.
  intros Ho Hp.
  destruct plugin; try (now apply put_returns).
  unfold insert_value.
  destruct (ensure_object block "__plugins" Ho) as (ib & Hib & Hibo).
  rewrite Hib. cbn [bindc]. rewrite (get_object _ _ Hibo). cbn [bindc].
  rewrite (ensure_same _ _ _ Hib).
  destruct (put_returns (or_empty (getp block "__plugins")) s vb
              (plugins_block_or_empty _ Hp)) as (pb' & ->).
  cbn [bindc]. now apply put_returns.
Qed.

(** On a well-formed key block the walk of a registration returns. *)
Lemma insert_at_returns locale plugin vb keyBlock :
  locale_normal locale ->
  isObject keyBlock = true ->
  (forall locale0, locale_normal locale0 -> level_ok (block_at keyBlock locale0)) ->
  exists keyBlock', insert_at locale plugin vb keyBlock = Normal keyBlock'.
Proof.
  intros Hn Ho Hlevels. unfold insert_at.
  destruct (ensure_object keyBlock (k (language locale)) Ho) as (kb & Hkb & Hkbo).
  rewrite Hkb. cbn [bindc]. rewrite (get_object _ _ Hkbo). cbn [bindc].
  rewrite (ensure_same _ _ _ Hkb).
  pose proof (Hlevels (mkLocale (language locale) None) I) as Hlang.
  unfold block_at in Hlang. cbn [language countryCode] in Hlang.
  destruct (level_ok_or_empty _ Hlang) as [Hlbo Hlbwf].
  set (lb := or_empty (getp keyBlock (k (language locale)))) in *.
  assert (Hinner : exists lb',
    match countryCode locale with
    | Some cc =>
        lb1 <- ensure lb (k cc) ;;
        countryBlock <- get lb1 (k cc) ;;
        countryBlock' <- insert_value countryBlock plugin vb ;;
        put lb1 (k cc) countryBlock'
    | None => insert_value lb plugin vb
    end = Normal lb').
  { pose proof (Hlevels locale Hn) as Hlevel. unfold block_at in Hlevel.
    destruct (countryCode locale) as [cc|].
    - destruct (ensure_object lb (k cc) Hlbo) as (lb1 & Hlb1 & Hlb1o).
      rewrite Hlb1. cbn [bindc]. rewrite (get_object _ _ Hlb1o). cbn [bindc].
      rewrite (ensure_same _ _ _ Hlb1). unfold lb. rewrite getp_or_empty.
      destruct (level_ok_or_empty _ Hlevel) as [Hcbo (Hcbp & _)].
      destruct (insert_value_returns _ plugin vb Hcbo Hcbp) as (cb' & ->).
      cbn [bindc]. now apply put_returns.
    - destruct Hlbwf as (Hp & _). now apply insert_value_returns. }
  destruct Hinner as (lb' & ->). cbn [bindc]. now apply put_returns.
Qed.

(** On a well-formed storage a registration returns true. *)
Lemma registerLocalization_returns locale key value plugin st :
  locale_normal locale ->
  storage_ok (storage st) ->
  exists st1, _registerLocalization locale key value plugin st = (Normal true, st1).
Proof.
  intros Hn Hsto. unfold _registerLocalization, findKeyBlock. cbn [andb].
  set (sto := if isUndefined (getp (JObj (storage st)) key)
              then set_own (storage st) key (JObj []) else storage st).
  assert (Hkb : isObject (getp (JObj sto) key) = true /\
                forall locale0, locale_normal locale0 ->
                  level_ok (block_at (getp (JObj sto) key) locale0)).
  { unfold sto. destruct (Hsto key) as [[Hu|Ho] Hlevels].
    - rewrite Hu, getp_setp_eq. split; [reflexivity|apply key_block_ok_empty].
    - destruct (getp (JObj (storage st)) key) eqn:E; try discriminate Ho.
      cbn [isUndefined]. rewrite E. auto. }
  destruct Hkb as [Ho Hlevels].
  destruct (insert_at_returns locale plugin (valueBlock value) _ Hn Ho Hlevels) as (kb' & ->).
  eauto.
Qed.

(** ** Country before language *)

Lemma locale_own_normal locale : locale_own locale -> locale_normal locale.
Proof.
  unfold locale_own, locale_normal. intros [_ H].
  destruct (countryCode locale); [apply H|exact I].
Qed.





Lemma valueBlock_not_nil value : isNil (valueBlock value) = false.
Proof. reflexivity. Qed.






(** ** Key paths stay in the storage *)

Lemma registerLocalization_keeps locale key value plugin st key0 :
  key_block_present st key0 ->
  key_block_present (snd (_registerLocalization locale key value plugin st)) key0.
Proof.
  unfold key_block_present, _registerLocalization, findKeyBlock. intros H.
  cbn [andb].
  destruct (String.eqb key key0) eqn:E.
  - apply String.eqb_eq in E. subst key0.
    destruct (getp (JObj (storage st)) key) eqn:Hk; try discriminate H.
    cbn [isUndefined]. rewrite Hk.
    destruct (insert_at locale plugin (valueBlock value) (JObj ps)) eqn:Hi; cbn.
    + rewrite get_own_set_own_eq. eapply insert_at_object; eauto.
    + simpl in Hk. now rewrite Hk.
  - assert (Hne : key <> key0) by (intros ->; rewrite String.eqb_refl in E; discriminate).
    assert (Hsto : forall v,
      getp (JObj (if isUndefined (getp (JObj (storage st)) key)
                  then set_own (storage st) key v else storage st)) key0
      = getp (JObj (storage st)) key0).
    { intros v. destruct (isUndefined _); auto. now apply getp_setp_neq. }
    match goal with
    | |- context [insert_at ?a ?b ?c ?d] => destruct (insert_at a b c d)
    end; cbn [snd with_storage storage].
    + rewrite getp_setp_neq by auto. now rewrite Hsto.
    + now rewrite Hsto.
Qed.

Lemma registerLocalization_creates locale key value plugin st r st' :
  _registerLocalization locale key value plugin st = (Normal r, st') ->
  key_block_present st' key.
Proof.
  unfold key_block_present, _registerLocalization, findKeyBlock.
  match goal with
  | |- context [insert_at ?a ?b ?c ?d] => destruct (insert_at a b c d) eqn:Hi
  end; [|discriminate].
  intros [= _ <-]. cbn [storage with_storage].
  rewrite getp_setp_eq. eapply insert_at_object; eauto.
Qed.

Lemma unregisterLocalization_keeps locale key plugin st key0 :
  key_block_present st key0 ->
  key_block_present (snd (unregisterLocalization locale key plugin st)) key0.
Proof.
  unfold key_block_present. intros H.
  assert (Hstore : forall lb,
    isObject (getp (JObj (storage (with_storage st
       (set_own (storage st) key
          (setp (snd (findKeyBlock key false (storage st)))
             (k (language locale)) lb))))) key0) = true).
  { intros lb. cbn [storage with_storage findKeyBlock andb snd].
    destruct (String.eqb key key0) eqn:E.
    - apply String.eqb_eq in E. subst key0. rewrite getp_setp_eq.
      destruct (getp (JObj (storage st)) key); try discriminate H. reflexivity.
    - rewrite getp_setp_neq; auto.
      intros ->. rewrite String.eqb_refl in E. discriminate. }
  unfold unregisterLocalization.
  repeat match goal with
  | |- context [if ?b then _ else _] => destruct b
  | |- context [match countryCode ?l with _ => _ end] => destruct (countryCode l)
  | |- context [match get ?a ?b with _ => _ end] => destruct (get a b)
  end; cbn [snd]; auto.
Qed.

Lemma unregister_keys_keeps locale plugin keys prev st key0 :
  key_block_present st key0 ->
  key_block_present (snd (unregister_keys locale plugin keys prev st)) key0.
Proof.
  revert prev st. induction keys as [|key rest IH]; intros prev st H; simpl; auto.
  pose proof (unregisterLocalization_keeps locale key plugin st key0 H) as H1.
  destruct (unregisterLocalization locale key plugin st) as [[removed|m] st']; simpl in *; auto.
Qed.

Lemma unregisterLocale_keeps locale plugin st key0 :
  key_block_present st key0 ->
  key_block_present (snd (unregisterLocale locale plugin st)) key0.
Proof.
  intros H. unfold unregisterLocale.
  pose proof (unregister_keys_keeps locale plugin (own_keys (storage st)) 0%Z st key0 H) as H1.
  destruct (unregister_keys locale plugin (own_keys (storage st)) 0 st) as [[n|m] st'];
    simpl in *; auto.
Qed.

Lemma register_queue_keeps fuel locale plugin queue result st out key0 :
  key_block_present st key0 ->
  register_queue fuel locale plugin queue result st = Some out ->
  key_block_present (snd out) key0.
Proof.
  revert queue result st.
  induction fuel as [|fuel IH]; intros queue result st H; destruct queue as [|[key v] rest];
    simpl; try discriminate; try (intros [= <-]; exact H).
  destruct v; try (apply IH; exact H); try (intros [= <-]; exact H).
  destruct result; [|apply IH; exact H].
  pose proof (registerLocalization_keeps locale key s plugin st key0 H) as H1.
  destruct (_registerLocalization locale key s plugin st) as [[r|m] st']; simpl in H1.
  - apply IH; exact H1.
  - intros [= <-]. exact H1.
Qed.

Lemma registerLocale_keeps silly locale localizations plugin st key0 :
  key_block_present st key0 ->
  key_block_present (snd (_registerLocale silly locale localizations plugin st)) key0.
Proof.
  intros H. unfold _registerLocale.
  destruct (negb (isObject localizations)); auto.
  destruct silly; [exact H|].
  destruct (register_queue (weight localizations) locale plugin
              (processObj None localizations) true st) as [[[r|m] st']|] eqn:Hq; auto.
  - apply (register_queue_keeps _ _ _ _ _ _ _ key0 H) in Hq.
    destruct (andb r (negb (isSupported_object locale))); exact Hq.
  - apply (register_queue_keeps _ _ _ _ _ _ _ key0 H) in Hq. exact Hq.
Qed.

Lemma run_keeps op st key0 :
  key_block_present st key0 -> key_block_present (run op st) key0.
Proof.
  destruct op; simpl.
  - apply registerLocalization_keeps.
  - apply registerLocale_keeps.
  - apply unregisterLocalization_keeps.
  - apply unregisterLocale_keeps.
Qed.

Lemma run_all_keeps ops st key0 :
  key_block_present st key0 -> key_block_present (run_all ops st) key0.
Proof.
  revert st. induction ops as [|op rest IH]; intros st H; simpl; auto.
  apply IH. now apply run_keeps.
Qed.

(** C10: once _registerLocalization has returned for a key, whatever
    sequence of registrations and unregistrations follows (each taken with
    the state it leaves, also when it throws), [Localization.storage[key]] is
    still an object, so the key-absent test at the head of g fails. *)
Theorem key_path_never_removed :
  forall locale key value plugin st r st1 ops,
    _registerLocalization locale key value plugin st = (Normal r, st1) ->
    key_block_present (run_all ops st1) key /\
    key_absent (storage (run_all ops st1)) key = false.
Proof.
  intros locale key value plugin st r st1 ops Hreg.
  assert (H : key_block_present (run_all ops st1) key).
  { apply run_all_keeps. eapply registerLocalization_creates; eauto. }
  split; auto.
  unfold key_block_present in H. unfold key_absent.
  destruct (getp (JObj (storage (run_all ops st1))) key); try discriminate H.
  reflexivity.
Qed.

Lemma key_path_never_removed_witness :
  key_block_present
    (run_all [UnregisterLocalization en_US "greeting" no_plugin;
              UnregisterLocale en_US no_plugin;
              UnregisterLocale en no_plugin] en_US_registered) "greeting" /\
  key_absent
    (storage (run_all [UnregisterLocalization en_US "greeting" no_plugin;
                       UnregisterLocale en_US no_plugin;
                       UnregisterLocale en no_plugin] en_US_registered)) "greeting" = false.
Proof.
  apply (key_path_never_removed en_US "greeting" "Hello" no_plugin en_US_loaded true
           en_US_registered).
  reflexivity.
Defined.

(** ** The queue of _registerLocale empties *)

Lemma weight_object ps : weight (JObj ps) = S (entries_weight ps).
Proof.
  unfold entries_weight. simpl. f_equal.
  induction ps as [|[q v] rest IH]; simpl; auto.
Qed.

Lemma entries_weight_app l1 l2 :
  entries_weight (l1 ++ l2) = entries_weight l1 + entries_weight l2.
Proof. unfold entries_weight. now rewrite map_app, list_sum_app. Qed.

Lemma entries_weight_perm l1 l2 :
  Permutation l1 l2 -> entries_weight l1 = entries_weight l2.
Proof.
  unfold entries_weight. induction 1; simpl; lia.
Qed.

Lemma processObj_weight prefix ps :
  entries_weight (processObj prefix (JObj ps)) = entries_weight ps.
Proof.
  unfold processObj.
  rewrite <- (entries_weight_perm _ _ (own_entries_perm ps)).
  unfold entries_weight. rewrite map_map. reflexivity.
Qed.

Lemma entries_weight_cons key v rest :
  entries_weight ((key, v) :: rest) = weight v + entries_weight rest.
Proof. reflexivity. Qed.

(** One turn per value is enough: the loop ends with a result. *)
Lemma register_queue_total fuel locale plugin queue result st :
  entries_weight queue <= fuel ->
  exists out, register_queue fuel locale plugin queue result st = Some out.
Proof.
  revert queue result st.
  induction fuel as [|fuel IH]; intros queue result st Hw;
    destruct queue as [|[key v] rest]; simpl; eauto;
    rewrite entries_weight_cons in Hw.
  - exfalso. destruct v; simpl weight in Hw; lia.
  - destruct v; try (apply IH; simpl weight in Hw; lia); eauto.
    + destruct result; [|apply IH; simpl weight in Hw; lia].
      destruct (_registerLocalization locale key s plugin st) as [[r|m] st']; eauto.
      apply IH; simpl weight in Hw; lia.
    + apply IH. rewrite entries_weight_app, processObj_weight.
      rewrite weight_object in Hw. lia.
Qed.

(** _registerLocale never stops with the queue unfinished. *)
Lemma registerLocale_queue_emptied locale ps plugin st :
  register_queue (weight (JObj ps)) locale plugin (processObj None (JObj ps)) true st
    <> None.
Proof.
  destruct (register_queue_total (weight (JObj ps)) locale plugin
              (processObj None (JObj ps)) true st) as [out Hout].
  - rewrite processObj_weight, weight_object. lia.
  - congruence.
Qed.

(** ** Registering, then unregistering *)

(** After a registration with a country code and no plugin, the path down to
    the default slot of the country block is there. *)
Lemma insert_at_country_default lang cc plugin vb keyBlock keyBlock' :
  isString plugin = false ->
  insert_at (mkLocale lang (Some cc)) plugin vb keyBlock = Normal keyBlock' ->
  exists kb lb cb,
    keyBlock' = JObj kb /\
    get_own kb (k lang) = Some (JObj lb) /\
    get_own lb (k cc) = Some (JObj cb) /\
    get_own cb "__default" = Some vb.
Proof.
  intros Hplugin. unfold insert_at. cbn [language countryCode].
  intros H.
  apply bindc_normal in H as (kb1 & _ & H).
  apply bindc_normal in H as (lb0 & _ & H).
  apply bindc_normal in H as (lb' & Hlb & H).
  apply put_normal in H as (kb & -> & Hkb).
  apply bindc_normal in Hlb as (lb1 & _ & Hlb).
  apply bindc_normal in Hlb as (cb0 & _ & Hlb).
  apply bindc_normal in Hlb as (cb' & Hcb & Hlb).
  apply put_normal in Hlb as (lb & -> & Hlb).
  assert (Hput : put cb0 "__default" vb = Normal cb')
    by (destruct plugin; try discriminate Hplugin; exact Hcb).
  apply put_normal in Hput as (cb & -> & Hd).
  exists kb, lb, cb. auto.
Qed.

(** Where the key block leads down to a country block whose default slot
    holds an object, an unregistration with no plugin deletes that slot and
    returns true; the supported index is not touched. *)
Lemma unregister_country_default lang cc key plugin st kb lb cb :
  isString plugin = false ->
  getp (JObj (storage st)) key = JObj kb ->
  get_own kb (k lang) = Some (JObj lb) ->
  get_own lb (k cc) = Some (JObj cb) ->
  isObject (getp (JObj cb) "__default") = true ->
  exists st2,
    unregisterLocalization (mkLocale lang (Some cc)) key plugin st = (Normal true, st2) /\
    default_slot (level_block (storage st2) (mkLocale lang (Some cc)) key) = JUndef /\
    supportedLookup st2 = supportedLookup st /\
    supported st2 = supported st.
Proof.
  intros Hp Hkey Hkb Hlb Hd.
  unfold unregisterLocalization, key_absent, findKeyBlock.
  cbn [andb snd language countryCode].
  rewrite Hkey. cbn [truthy negb].
  rewrite (getp_own _ _ _ Hkb). cbn [isNil].
  rewrite (getp_own _ _ _ Hlb). cbn [isNil negb]. rewrite Hp. cbn [andb].
  unfold get. cbn [isNil]. rewrite Hd.
  eexists. split; [reflexivity|].
  cbn [storage with_storage supportedLookup supported]. split; [|split; reflexivity].
  unfold level_block, default_slot. cbn [language countryCode].
  rewrite getp_setp_eq. cbn [setp]. rewrite !getp_setp_eq.
  apply getp_delp_eq.
Qed.

(** A registration with a country code and no plugin leaves that path in the
    state, and the supported index as it was. *)
Lemma registerLocalization_country_path lang cc key value plugin st r st1 :
  isString plugin = false ->
  _registerLocalization (mkLocale lang (Some cc)) key value plugin st = (Normal r, st1) ->
  supportedLookup st1 = supportedLookup st /\
  supported st1 = supported st /\
  exists kb lb cb,
    getp (JObj (storage st1)) key = JObj kb /\
    get_own kb (k lang) = Some (JObj lb) /\
    get_own lb (k cc) = Some (JObj cb) /\
    get_own cb "__default" = Some (valueBlock value).
Proof.
  intros Hp. unfold _registerLocalization.
  destruct (findKeyBlock key true (storage st)) as [sto keyBlock].
  destruct (insert_at (mkLocale lang (Some cc)) plugin (valueBlock value) keyBlock)
    as [keyBlock'|] eqn:Hins; [|discriminate].
  intros [= _ <-].
  apply insert_at_country_default in Hins as (kb & lb & cb & -> & Hkb & Hlb & Hcb); auto.
  cbn [storage with_storage supportedLookup supported].
  split; [reflexivity|]. split; [reflexivity|].
  exists kb, lb, cb. rewrite getp_setp_eq. auto.
Qed.

(** X23: the round trip at the country level: for a locale that carries a
    country code and a key, both with own names, once _registerLocalization
    has registered a value with no plugin, unregisterLocalization for the
    same (locale, key) pair with no plugin returns true and leaves the
    country block without its default slot; neither call touches the
    supported index. *)
Theorem register_then_unregister_country :
  forall lang cc key value plugin1 plugin2 st r st1,
    own_name key ->
    locale_own (mkLocale lang (Some cc)) ->
    isString plugin1 = false ->
    isString plugin2 = false ->
    _registerLocalization (mkLocale lang (Some cc)) key value plugin1 st = (Normal r, st1) ->
    exists st2,
      unregisterLocalization (mkLocale lang (Some cc)) key plugin2 st1 = (Normal true, st2) /\
      default_slot (level_block (storage st2) (mkLocale lang (Some cc)) key) = JUndef /\
      supportedLookup st2 = supportedLookup st /\
      supported st2 = supported st.
Proof.
  intros lang cc key value plugin1 plugin2 st r st1 _ _ Hp1 Hp2 Hreg.
  destruct (registerLocalization_country_path _ _ _ _ _ _ _ _ Hp1 Hreg)
    as (Hl & Hs & kb & lb & cb & Hkey & Hkb & Hlb & Hcb).
  destruct (unregister_country_default lang cc key plugin2 st1 kb lb cb) as (st2 & H);
    auto.
  - now rewrite (getp_own _ _ _ Hcb).
  - exists st2. rewrite <- Hl, <- Hs. exact H.
Qed.

Lemma register_then_unregister_country_witness :
  exists st2,
    unregisterLocalization en_US "greeting" no_plugin en_US_registered = (Normal true, st2) /\
    default_slot (level_block (storage st2) en_US "greeting") = JUndef /\
    supportedLookup st2 = supportedLookup en_US_loaded /\
    supported st2 = supported en_US_loaded.
Proof.
  apply (register_then_unregister_country "en" "US" "greeting" "Hello" no_plugin no_plugin
           en_US_loaded true en_US_registered);
    try reflexivity.
  repeat split; reflexivity.
Defined.

(** In a state built from the empty one by registrations and unregistrations
    the registration itself returns, so the whole round trip goes through. *)
Lemma round_trip_from_reachable_state ops lang cc key value plugin1 plugin2 :
  Forall operation_normal ops ->
  reserved cc = false ->
  isString plugin1 = false ->
  isString plugin2 = false ->
  exists st1 st2,
    _registerLocalization (mkLocale lang (Some cc)) key value plugin1
      (run_all ops empty_state) = (Normal true, st1) /\
    unregisterLocalization (mkLocale lang (Some cc)) key plugin2 st1 = (Normal true, st2) /\
    default_slot (level_block (storage st2) (mkLocale lang (Some cc)) key) = JUndef /\
    supportedLookup st2 = supportedLookup (run_all ops empty_state) /\
    supported st2 = supported (run_all ops empty_state).
Proof.
  intros Hops Hcc Hp1 Hp2.
  destruct (registerLocalization_returns (mkLocale lang (Some cc)) key value plugin1
              (run_all ops empty_state)) as (st1 & Hreg).
  - exact Hcc.
  - apply run_all_ok; [exact Hops|apply storage_ok_empty].
  - destruct (registerLocalization_country_path _ _ _ _ _ _ _ _ Hp1 Hreg)
      as (Hl & Hs & kb & lb & cb & Hkey & Hkb & Hlb & Hcb).
    destruct (unregister_country_default lang cc key plugin2 st1 kb lb cb) as (st2 & H);
      auto.
    + now rewrite (getp_own _ _ _ Hcb).
    + exists st1, st2. rewrite <- Hl, <- Hs. split; [exact Hreg|exact H].
Qed.

(** C2 at a failing input: "greeting" is registered for the locale en (no
    country code, no plugin) on the empty storage and unregistered for the
    same pair.  The registration returns true; the unregistration returns
    false and changes nothing, so the default slot still holds the value:
    at the language level unregisterLocalization tests the slot with
    _.isString, and a slot holds a value block (the country level tests it
    with _.isObject). *)
Theorem language_default_not_unregistered :
  _registerLocalization en "greeting" "Hello" no_plugin empty_state
    = (Normal true, english_only)
  /\ unregisterLocalization en "greeting" no_plugin english_only
       = (Normal false, english_only)
  /\ default_slot (level_block (storage english_only) en "greeting") = valueBlock "Hello".
Proof. repeat split; reflexivity. Qed.

(** ** Lookups that find nothing *)

Lemma processLanguageBlock_not_object key params dpv plugin locale langBlock c :
  isObject langBlock = false ->
  processLanguageBlock key params dpv plugin locale langBlock c = (Normal JNull, c).
Proof. intros H. unfold processLanguageBlock. now rewrite H. Qed.

(** With no language block for the instance's locale nor for the default
    locale, g falls back on [options.defaultVal] only when the two locales
    coincide; when they differ the result of the second walk, null, goes to
    finalize. *)
Lemma g_no_language_block defaultLocale sto key options self kb :
  isObject (params_of (options_or_default options)) = true ->
  getp (JObj sto) key = JObj kb ->
  get_own (cache self) key = None ->
  isObject (getp (JObj kb) (k (language (localeObj self)))) = false ->
  isObject (getp (JObj kb) (k (language defaultLocale))) = false ->
  g defaultLocale sto key options self =
    (Normal (finalize key (opt_defaultVal (options_or_default options))
               (if locale_differs defaultLocale (localeObj self)
                then JNull
                else opt_defaultVal (options_or_default options))),
     self).
Proof.
  intros Hparams Hkb Hcache Hl Hd. unfold g, key_absent, findKeyBlock.
  rewrite Hparams. cbn [negb andb snd]. rewrite Hkb. cbn [truthy negb].
  replace (getp (JObj (cache self)) key) with JUndef by (simpl; now rewrite Hcache).
  cbn [truthy]. rewrite processLanguageBlock_not_object by exact Hl.
  cbn [isString negb].
  destruct (locale_differs defaultLocale (localeObj self)).
  - rewrite processLanguageBlock_not_object by exact Hd. now rewrite with_cache_same.
  - now rewrite with_cache_same.
Qed.

(** C1 at a failing input: "greeting" is registered for fr only, the default
    locale is en-US, the instance's locale is de-DE and the call supplies
    defaultVal "n/a": g returns null, neither the defaultVal nor a string. *)
Theorem g_null_despite_defaultVal :
  g en_US (storage french_only) "greeting"
    (Some (mkOptions JUndef JUndef (JStr "n/a") JUndef)) (new_instance de_DE JUndef)
  = (Normal JNull, new_instance de_DE JUndef).
Proof. reflexivity. Qed.

(** The same call on an instance whose locale is the default one does return
    the defaultVal. *)
Example g_defaultVal_on_default_locale :
  g en_US (storage french_only) "greeting"
    (Some (mkOptions JUndef JUndef (JStr "n/a") JUndef)) (new_instance en_US JUndef)
  = (Normal (JStr "n/a"), new_instance en_US JUndef).
Proof. reflexivity. Qed.

(** ** Bulk registration *)

Lemma all_strings_object ps : all_strings (JObj ps) = queue_all_strings ps.
Proof.
  unfold queue_all_strings. simpl.
  induction ps as [|[q v] rest IH]; simpl; auto. now rewrite IH.
Qed.

Lemma queue_all_strings_perm l1 l2 :
  Permutation l1 l2 -> queue_all_strings l1 = queue_all_strings l2.
Proof.
  unfold queue_all_strings. induction 1; simpl; auto.
  - now rewrite IHPermutation.
  - now rewrite !andb_assoc, (andb_comm (all_strings (snd y))).
  - congruence.
Qed.

Lemma processObj_all_strings prefix ps :
  queue_all_strings (processObj prefix (JObj ps)) = queue_all_strings ps.
Proof.
  unfold processObj.
  rewrite <- (queue_all_strings_perm _ _ (own_entries_perm ps)).
  unfold queue_all_strings.
  induction (own_entries ps) as [|e rest IH]; simpl; auto. now rewrite IH.
Qed.

Lemma queue_all_strings_app l1 l2 :
  queue_all_strings (l1 ++ l2) = andb (queue_all_strings l1) (queue_all_strings l2).
Proof. apply forallb_app. Qed.

Lemma queue_all_strings_cons key v rest :
  queue_all_strings ((key, v) :: rest) = andb (all_strings v) (queue_all_strings rest).
Proof. reflexivity. Qed.

Lemma registerLocalization_true locale key value plugin st r st' :
  _registerLocalization locale key value plugin st = (Normal r, st') -> r = true.
Proof.
  unfold _registerLocalization.
  destruct (findKeyBlock key true (storage st)) as [sto keyBlock].
  destruct (insert_at locale plugin (valueBlock value) keyBlock); [|discriminate].
  now intros [= <- _].
Qed.

(** The loop returns only when every leaf was a string, and then with the
    result it started from. *)
Lemma register_queue_result fuel locale plugin queue result st b st' :
  register_queue fuel locale plugin queue result st = Some (Normal b, st') ->
  b = result /\ queue_all_strings queue = true.
Proof.
  revert queue result st.
  induction fuel as [|fuel IH]; intros [|[key v] rest] result st;
    try (simpl; discriminate);
    try (simpl; intros [= <- _]; now split).
  rewrite queue_all_strings_cons. cbn [register_queue]. rewrite formatLocale_string.
  destruct v; try discriminate.
  - destruct result.
    + destruct (_registerLocalization locale key s plugin st) as [[r|m] st1] eqn:Hreg;
        [|discriminate].
      apply registerLocalization_true in Hreg. subst r. apply IH.
    + apply IH.
  - intros H. apply IH in H as [-> H]. split; [reflexivity|].
    rewrite queue_all_strings_app, processObj_all_strings in H.
    rewrite all_strings_object. now rewrite andb_comm.
Qed.

(** Once compoundedResult is false, the rest of the queue leaves the state
    alone. *)
Lemma register_queue_after_failure fuel locale plugin queue st out :
  register_queue fuel locale plugin queue false st = Some out ->
  snd out = st.
Proof.
  revert queue. induction fuel as [|fuel IH]; intros [|[key v] rest]; simpl;
    try discriminate; try (now intros [= <-]).
  destruct v; try apply IH; now intros [= <-].
Qed.

(** C3 at a failing input: the number under "a" is neither an object nor a
    string, and the warning for it is built with formatLocale, which ends in
    a TypeError: the call throws, the string under "b" is never visited and
    the storage stays empty.  A map whose only leaf is a string does not
    return true either: its leaf is stored, then the entry for the supported
    lookup is named with formatLocale and the call throws. *)
Theorem registerLocale_throws_at_invalid_leaf :
  _registerLocale false en_US (JObj [("a", JNum 1); ("b", JStr "x")]) no_plugin empty_state
    = (Throw "TypeError: _.isNullOrUndefined is not a function", empty_state)
  /\ fst (_registerLocale false en_US (JObj [("b", JStr "x")]) no_plugin empty_state)
       = Throw "TypeError: _.isNullOrUndefined is not a function"
  /\ default_slot
       (level_block
          (storage (snd (_registerLocale false en_US (JObj [("b", JStr "x")]) no_plugin
                           empty_state)))
          en_US "b") = valueBlock "x".
Proof. repeat split; reflexivity. Qed.

(** ** Unregistering where blocks are missing *)

(** A missing key block or language block makes unregisterLocalization
    return false and leave the state alone. *)
Lemma unregister_missing_key_or_language locale key plugin st :
  key_absent (storage st) key = true \/
  isNil (getp (getp (JObj (storage st)) key) (k (language locale))) = true ->
  unregisterLocalization locale key plugin st = (Normal false, st).
Proof.
  unfold unregisterLocalization, findKeyBlock. cbn [andb snd]. intros [H|H].
  - now rewrite H.
  - rewrite H. destruct (key_absent (storage st) key); auto.
    now destruct (negb (truthy (getp (JObj (storage st)) key))).
Qed.

(** A language block without the country block makes it throw: the read of
    [langBlock[countryKey].__default] stands outside the nil test. *)
Lemma unregister_missing_country_throws lang cc key plugin st :
  key_absent (storage st) key = false ->
  isNil (getp (getp (JObj (storage st)) key) (k lang)) = false ->
  isNil (getp (getp (getp (JObj (storage st)) key) (k lang)) (k cc)) = true ->
  unregisterLocalization (mkLocale lang (Some cc)) key plugin st =
    (Throw "TypeError: cannot read properties of undefined or null", st).
Proof.
  unfold unregisterLocalization, findKeyBlock. cbn [andb snd language countryCode].
  intros Hk Hl Hc. rewrite Hk.
  unfold key_absent in Hk. rewrite Hk, Hl, Hc. cbn [negb andb].
  unfold get. now rewrite Hc.
Qed.

(** C5 at a failing input: "greeting" is registered for en only and
    unregisterLocalization is asked for en-US: the country block is absent
    and the call throws a TypeError instead of returning false. *)
Theorem unregister_absent_country_block :
  unregisterLocalization en_US "greeting" no_plugin english_only =
    (Throw "TypeError: cannot read properties of undefined or null", english_only).
Proof. reflexivity. Qed.

(** * More of the module *)

(** ** Strings and the locale codec *)

Lemma length_append a b : String.length (a ++ b) = String.length a + String.length b.
Proof. induction a; simpl; auto. Qed.

Lemma append_assoc (a b c : string) : (a ++ b) ++ c = a ++ (b ++ c).
Proof. induction a; simpl; congruence. Qed.

Lemma append_empty_r (a : string) : a ++ EmptyString = a.
Proof. induction a; simpl; congruence. Qed.

Lemma prefix_refl s : String.prefix s s = true.
Proof. induction s; simpl; auto. destruct (ascii_dec a a); [auto|contradiction]. Qed.

Lemma prefix_length p s : String.prefix p s = true -> String.length p <= String.length s.
Proof.
  revert p. induction s as [|c s IH]; intros [|d p]; simpl; try lia; try discriminate.
  destruct (ascii_dec d c); [|discriminate]. intros H. apply IH in H. lia.
Qed.

Lemma lastIndexOf_short s pat :
  String.length s < String.length pat -> lastIndexOf s pat = (-1)%Z.
Proof.
  induction s as [|c s IH]; intros H; cbn [lastIndexOf].
  - destruct pat; simpl in *; [lia|reflexivity].
  - rewrite IH by (simpl in H; lia). cbn [Z.leb Z.compare].
    destruct (String.prefix pat (String c s)) eqn:E; auto.
    apply prefix_length in E. simpl in E, H. lia.
Qed.

Lemma lastIndexOf_self pat : pat <> EmptyString -> lastIndexOf pat pat = 0%Z.
Proof.
  destruct pat as [|c r]; [congruence|]. intros _.
  cbn [lastIndexOf]. rewrite lastIndexOf_short by (simpl; lia).
  cbn [Z.leb Z.compare]. now rewrite prefix_refl.
Qed.

(** The last occurrence of a suffix is the suffix. *)
Lemma lastIndexOf_suffix a pat :
  pat <> EmptyString -> lastIndexOf (a ++ pat) pat = Z.of_nat (String.length a).
Proof.
  intros Hp. induction a as [|c a IH].
  - now apply lastIndexOf_self.
  - cbn [append lastIndexOf String.length]. rewrite IH.
    destruct (Z.leb_spec 0 (Z.of_nat (String.length a))); lia.
Qed.

Lemma lastIndexOf_absent ch s :
  has_char ch s = false -> lastIndexOf s (String ch EmptyString) = (-1)%Z.
Proof.
  induction s as [|c s IH]; simpl; auto.
  intros H. apply orb_false_iff in H as [Hc Hs]. rewrite (IH Hs). simpl.
  destruct (ascii_dec ch c) as [->|]; auto.
  rewrite Ascii.eqb_refl in Hc. discriminate.
Qed.

Lemma lastIndexOf_last a ch rest :
  has_char ch rest = false ->
  lastIndexOf (a ++ String ch rest) (String ch EmptyString) = Z.of_nat (String.length a).
Proof.
  intros Hr. induction a as [|c a IH].
  - cbn [append lastIndexOf]. rewrite (lastIndexOf_absent _ _ Hr). simpl.
    destruct (ascii_dec ch ch); [|contradiction]. now destruct rest.
  - cbn [append lastIndexOf String.length]. rewrite IH.
    destruct (Z.leb_spec 0 (Z.of_nat (String.length a))); lia.
Qed.

Lemma substring_whole m b : String.substring 0 (String.length m) (m ++ b) = m.
Proof. induction m; simpl; [now destruct b|congruence]. Qed.

Lemma substring_middle a m b :
  String.substring (String.length a) (String.length m) (a ++ m ++ b) = m.
Proof. induction a; simpl; auto. apply substring_whole. Qed.

Lemma has_char_append ch a b : has_char ch (a ++ b) = orb (has_char ch a) (has_char ch b).
Proof. induction a; simpl; auto. now rewrite IHa, orb_assoc. Qed.

Lemma split_absent sep s : has_char sep s = false -> split sep s = [s].
Proof.
  induction s as [|c s IH]; simpl; auto.
  intros H. apply orb_false_iff in H as [Hc Hs]. now rewrite Hc, (IH Hs).
Qed.

Lemma split_first sep l r :
  has_char sep l = false -> split sep (l ++ String sep r) = l :: split sep r.
Proof.
  induction l as [|c l IH]; simpl.
  - now rewrite Ascii.eqb_refl.
  - intros H. apply orb_false_iff in H as [Hc Hs]. now rewrite Hc, (IH Hs).
Qed.

Lemma part_some parts i f p :
  nth_error parts i = Some p -> p <> EmptyString -> part parts i f = Some (f p).
Proof.
  unfold part. intros -> H. apply String.eqb_neq in H. now rewrite H.
Qed.

(** A bare locale name, its parts free of separators, parses into these
    parts. *)
(** X2: the locale of a definition file: for a path that ends in a slash,
    a language, optionally a dash and a country code, and ".js", where
    neither part is empty or holds a slash or a dash, parseLocaleStr returns
    the language in lower case and the country code in upper case, whatever
    the directory is. *)
Theorem parseLocaleStr_file_path :
  forall dir l cc,
    l <> EmptyString -> has_char "/" l = false -> has_char "-" l = false ->
    match cc with
    | Some c => c <> EmptyString /\ has_char "/" c = false /\ has_char "-" c = false
    | None => True
    end ->
    parseLocaleStr
      (dir ++ "/" ++ (match cc with Some c => l ++ "-" ++ c | None => l end) ++ JS_EXT) =
      mkParsed (Some (toLowerCase l)) (option_map toUpperCase cc).
Proof.
  intros dir l cc Hne Hs Hd Hcc.
  set (name := match cc with Some c => l ++ "-" ++ c | None => l end).
  assert (Hname : has_char "/" name = false).
  { unfold name. destruct cc as [c|]; auto. destruct Hcc as (_ & Hcs & _).
    rewrite !has_char_append, Hs. cbn [has_char append orb]. now rewrite Hcs. }
  unfold parseLocaleStr.
  change (dir ++ "/" ++ name ++ JS_EXT) with (dir ++ String "/" (name ++ JS_EXT)).
  rewrite (lastIndexOf_last dir "/" (name ++ JS_EXT))
    by (rewrite has_char_append, Hname; reflexivity).
  destruct (Z.ltb_spec (Z.of_nat (String.length dir)) 0) as [Hneg|_]; [lia|].
  replace (dir ++ String "/" (name ++ JS_EXT)) with ((dir ++ String "/" name) ++ JS_EXT)
    by (now rewrite append_assoc).
  rewrite (lastIndexOf_suffix (dir ++ String "/" name) JS_EXT) by discriminate.
  destruct (Z.ltb_spec (Z.of_nat (String.length (dir ++ String "/" name))) 0) as [Hneg|_];
    [lia|].
  assert (Hsub : substr ((dir ++ String "/" name) ++ JS_EXT)
                   (Z.of_nat (String.length dir) + 1)
                   (Z.of_nat (String.length (dir ++ String "/" name))
                    - Z.of_nat (String.length dir) - 1) = name).
  { unfold substr. rewrite ?length_append. cbn [String.length].
    rewrite ?length_append.
    destruct (Z.ltb_spec (Z.of_nat (String.length dir) + 1) 0) as [Hneg|_]; [lia|].
    match goal with
    | |- String.substring (Z.to_nat ?a) (Z.to_nat ?b) _ = _ =>
        replace (Z.to_nat a) with (String.length (dir ++ "/")) by
          (rewrite length_append; cbn [String.length]; lia);
        replace (Z.to_nat b) with (String.length name) by lia
    end.
    replace ((dir ++ String "/" name) ++ JS_EXT) with ((dir ++ "/") ++ name ++ JS_EXT)
      by (rewrite !append_assoc; reflexivity).
    apply substring_middle. }
  rewrite Hsub. unfold name. destruct cc as [c|]; cbn [option_map].
  - destruct Hcc as (Hcne & _ & Hcd).
    change (l ++ "-" ++ c) with (l ++ String "-" c).
    rewrite (split_first "-" l c Hd), (split_absent "-" c Hcd).
    rewrite (part_some _ 0 _ l), (part_some _ 1 _ c); auto.
  - rewrite (split_absent "-" l Hd).
    rewrite (part_some _ 0 _ l); auto.
Qed.

Lemma parseLocaleStr_file_path_witness :
  parseLocaleStr "/path/to/en-US.js" = mkParsed (Some "en") (Some "US").
Proof.
  apply (parseLocaleStr_file_path "/path/to" "en" (Some "US"));
    [discriminate | reflexivity | reflexivity | repeat split; discriminate].
Defined.

Lemma lastIndexOf_zero s pat : lastIndexOf s pat = 0%Z -> String.prefix pat s = true.
Proof.
  destruct s as [|c r]; cbn [lastIndexOf].
  - destruct (String.prefix pat EmptyString); [reflexivity|discriminate].
  - destruct (Z.leb_spec 0 (lastIndexOf r pat)); [lia|].
    destruct (String.prefix pat (String c r)); [reflexivity|discriminate].
Qed.

Lemma lastIndexOf_lower s pat : (-1 <= lastIndexOf s pat)%Z.
Proof.
  induction s as [|c r IH]; cbn [lastIndexOf].
  - destruct (String.prefix pat EmptyString); lia.
  - destruct (Z.leb_spec 0 (lastIndexOf r pat)); [lia|].
    destruct (String.prefix pat (String c r)); lia.
Qed.

(** X3: isSupported throws for a locale string that starts with a dash and
    holds no slash or backslash: parseLocaleStr finds no language in it,
    and formatLocale refuses a language that is not a string. *)
Theorem isSupported_throws_without_language :
  forall c st,
    has_char "/" c = false -> has_char "\" c = false ->
    isSupported (JStr (String "-" c)) st = Throw "language parameter is required".
Proof.
  intros c st Hs Hb. unfold isSupported. cbn [String.length Nat.eqb].
  assert (Hp : p_language (parseLocaleStr (String "-" c)) = None).
  { unfold parseLocaleStr.
    rewrite (lastIndexOf_absent "/") by (cbn [has_char]; now rewrite Hs).
    cbn [Z.ltb Z.compare].
    rewrite (lastIndexOf_absent "\") by (cbn [has_char]; now rewrite Hb).
    set (e := lastIndexOf (String "-" c) JS_EXT).
    assert (He : e <> 0%Z).
    { intros E. apply lastIndexOf_zero in E. discriminate E. }
    pose proof (lastIndexOf_lower (String "-" c) JS_EXT) as Hl. fold e in Hl.
    set (extPos := if Z.ltb e 0 then Z.of_nat (String.length (String "-" c)) else e).
    assert (Hpos : (1 <= extPos)%Z).
    { unfold extPos. destruct (Z.ltb_spec e 0); cbn [String.length]; lia. }
    unfold substr. cbn [String.length].
    change (-1 + 1)%Z with 0%Z. cbn [Z.ltb Z.compare].
    rewrite Z.min_l by lia.
    change (Z.to_nat 0) with 0%nat.
    set (n := Z.to_nat _).
    assert (Hn : exists m, n = S m).
    { exists (Nat.pred n). unfold n. lia. }
    destruct Hn as [m ->]. cbn [String.substring split Ascii.eqb Bool.eqb].
    reflexivity. }
  rewrite Hp. reflexivity.
Qed.

Lemma isSupported_throws_without_language_witness :
  isSupported (JStr "-US") empty_state = Throw "language parameter is required".
Proof.
  apply (isSupported_throws_without_language "US" empty_state); reflexivity.
Defined.



(** ** The supported lookup is never written *)

Lemma registerLocalization_index locale key value plugin st :
  supportedLookup (snd (_registerLocalization locale key value plugin st)) = supportedLookup st /\
  supported (snd (_registerLocalization locale key value plugin st)) = supported st.
Proof.
  unfold _registerLocalization.
  destruct (findKeyBlock key true (storage st)) as [sto keyBlock].
  now destruct (insert_at locale plugin (valueBlock value) keyBlock).
Qed.

Lemma unregisterLocalization_index locale key plugin st :
  supportedLookup (snd (unregisterLocalization locale key plugin st)) = supportedLookup st /\
  supported (snd (unregisterLocalization locale key plugin st)) = supported st.
Proof.
  unfold unregisterLocalization. cbv zeta.
  repeat match goal with
         | |- context [if ?c then _ else _] => destruct c
         | |- context [match ?c with Some _ => _ | None => _ end] => destruct c
         | |- context [match ?c with Normal _ => _ | Throw _ => _ end] => destruct c
         end; auto.
Qed.

Lemma unregister_keys_index locale plugin keys prev st :
  supportedLookup (snd (unregister_keys locale plugin keys prev st)) = supportedLookup st /\
  supported (snd (unregister_keys locale plugin keys prev st)) = supported st.
Proof.
  revert prev st. induction keys as [|key rest IH]; intros prev st; simpl; auto.
  pose proof (unregisterLocalization_index locale key plugin st) as [H1 H2].
  destruct (unregisterLocalization locale key plugin st) as [[removed|m] st']; simpl in *; auto.
  destruct (IH (prev + (if removed then 1 else 0))%Z st') as [H3 H4].
  split; congruence.
Qed.

Lemma register_queue_index fuel locale plugin queue result st out :
  register_queue fuel locale plugin queue result st = Some out ->
  supportedLookup (snd out) = supportedLookup st /\ supported (snd out) = supported st.
Proof.
  revert queue result st.
  induction fuel as [|fuel IH]; intros [|[key v] rest] result st; simpl;
    try discriminate; try (now intros [= <-]).
  destruct v; try apply IH; try (now intros [= <-]).
  destruct result; [|apply IH].
  pose proof (registerLocalization_index locale key s plugin st) as [H1 H2].
  destruct (_registerLocalization locale key s plugin st) as [[r|m] st1]; simpl in *.
  - intros H. apply IH in H as [H3 H4]. split; congruence.
  - intros [= <-]. auto.
Qed.

(** _registerLocale ends in a throw, with the lookup and the list as they
    were: the loop hands back true or throws, and the name for the lookup is
    asked of formatLocale. *)
Lemma registerLocale_throws silly locale localizations plugin st :
  exists msg st',
    _registerLocale silly locale localizations plugin st = (Throw msg, st') /\
    supportedLookup st' = supportedLookup st /\ supported st' = supported st.
Proof.
  unfold _registerLocale.
  destruct (negb (isObject localizations)); [eauto|].
  destruct silly; [rewrite formatLocale_string; eauto|].
  destruct (register_queue (weight localizations) locale plugin
              (processObj None localizations) true st) as [[[r|m] st1]|] eqn:Hq;
    [| |eauto].
  - pose proof (register_queue_index _ _ _ _ _ _ _ Hq) as [H1 H2].
    apply register_queue_result in Hq as [-> _].
    cbn [andb negb isSupported_object]. rewrite formatLocale_string. eauto.
  - pose proof (register_queue_index _ _ _ _ _ _ _ Hq) as [H1 H2]. eauto.
Qed.

(** unregisterLocale ends in a throw as well: in unregisterLocalization, or
    where the name to delete is asked of formatLocale. *)
Lemma unregisterLocale_throws locale plugin st :
  exists msg st',
    unregisterLocale locale plugin st = (Throw msg, st') /\
    supportedLookup st' = supportedLookup st /\ supported st' = supported st.
Proof.
  unfold unregisterLocale.
  pose proof (unregister_keys_index locale plugin (own_keys (storage st)) 0%Z st) as [H1 H2].
  destruct (unregister_keys locale plugin (own_keys (storage st)) 0 st) as [[n|m] st1];
    cbn [snd] in *.
  - rewrite formatLocale_string. eauto.
  - eauto.
Qed.

(** X4: registerLocale and _registerLocale never return: for every locale,
    object of localizations and options, whatever the logger answers, the
    call throws.  With a map of strings the leaves are stored first; the
    throw then comes from formatLocale, which names the entry for the
    supported lookup. *)
Theorem registerLocale_never_returns :
  forall silly locale localizations plugin options st,
    (exists msg st',
        _registerLocale silly locale localizations plugin st = (Throw msg, st'))
    /\
    (forall given, exists msg st',
        registerLocale silly given localizations options st = (Throw msg, st')).
Proof.
  intros silly locale m plugin options st. split.
  - destruct (registerLocale_throws silly locale m plugin st) as (msg & st' & H & _).
    eauto.
  - intros given. unfold registerLocale, with_locale.
    destruct (assertOptions options) as [p|]; [|eauto].
    destruct (parseLocale given) as [l|]; [|eauto].
    destruct (registerLocale_throws silly l m p st) as (msg & st' & H & _). eauto.
Qed.

(** X6: unregisterLocale never returns: for every locale and plugin the call
    throws, in unregisterLocalization or, once every key has been visited,
    in formatLocale; supportedLookup keeps its entries. *)
Theorem unregisterLocale_never_returns :
  forall given plugin st,
    exists msg st',
      unregisterLocale_of given plugin st = (Throw msg, st') /\
      supportedLookup st' = supportedLookup st /\
      supported st' = supported st.
Proof.
  intros given plugin st. unfold unregisterLocale_of, with_locale.
  destruct (parseLocale given) as [l|]; [|eauto].
  apply unregisterLocale_throws.
Qed.

Lemma unregister_keys_language_noop lang plugin keys prev st :
  storage_ok (storage st) ->
  unregister_keys (mkLocale lang None) plugin keys prev st = (Normal prev, st).
Proof.
  intros H. revert prev. induction keys as [|key rest IH]; intros prev; simpl; auto.
  rewrite unregister_language_level_noop by auto.
  rewrite IH. f_equal. f_equal. lia.
Qed.

(** X7: unregisterLocale for a locale without a country code, on a
    well-formed storage: no value is removed from the storage, nothing is
    taken out of supportedLookup, and the call throws the TypeError of
    formatLocale; the state is as it was. *)
Theorem unregisterLocale_language_only :
  forall lang plugin st,
    storage_ok (storage st) ->
    unregisterLocale (mkLocale lang None) plugin st =
      (Throw "TypeError: _.isNullOrUndefined is not a function", st).
Proof.
  intros lang plugin st H. unfold unregisterLocale.
  now rewrite unregister_keys_language_noop.
Qed.

Lemma unregisterLocale_language_only_witness :
  unregisterLocale (mkLocale "en" None) no_plugin english_only =
    (Throw "TypeError: _.isNullOrUndefined is not a function", english_only).
Proof.
  apply (unregisterLocale_language_only "en" no_plugin english_only).
  unfold english_only, state_after.
  apply registerLocalization_ok; [exact I|apply storage_ok_empty].
Defined.

Lemma run_index op st :
  supportedLookup (run op st) = supportedLookup st /\ supported (run op st) = supported st.
Proof.
  destruct op as [l key v p|silly l m p|l key p|l p]; cbn [run].
  - apply registerLocalization_index.
  - destruct (registerLocale_throws silly l m p st) as (msg & st' & -> & H). exact H.
  - apply unregisterLocalization_index.
  - destruct (unregisterLocale_throws l p st) as (msg & st' & -> & H). exact H.
Qed.

(** X8: supportedLookup and the list behind Localization.supported are never
    written: after any sequence of _registerLocalization, _registerLocale,
    unregisterLocalization and unregisterLocale calls, each taken with the
    state it leaves when it throws, both are what they were at the start. *)
Theorem supported_index_never_written :
  forall ops st,
    supportedLookup (run_all ops st) = supportedLookup st /\
    supported (run_all ops st) = supported st.
Proof.
  intros ops. unfold run_all.
  induction ops as [|op ops IH]; intros st; cbn [fold_left]; [auto|].
  destruct (IH (run op st)) as [H1 H2]. destruct (run_index op st) as [H3 H4].
  split; congruence.
Qed.

(** ** One registration, one slot *)

Lemma same_locale_eq a b : same_locale a b = true <-> a = b.
Proof.
  unfold same_locale, locale_differs. destruct a as [la ca], b as [lb cb].
  cbn [language countryCode]. rewrite negb_true_iff, orb_false_iff, !negb_false_iff.
  split.
  - intros [Hl Hc]. apply String.eqb_eq in Hl. subst lb.
    destruct ca as [x|], cb as [y|]; try discriminate; auto.
    apply String.eqb_eq in Hc. now subst y.
  - intros [= -> ->]. rewrite String.eqb_refl. destruct cb; auto using String.eqb_refl.
Qed.

Lemma same_locale_refl a : same_locale a a = true.
Proof. now apply same_locale_eq. Qed.

Lemma same_locale_neq a b : a <> b -> same_locale a b = false.
Proof.
  intros H. destruct (same_locale a b) eqn:E; auto. apply same_locale_eq in E. contradiction.
Qed.

Lemma get_ensure o p o' : ensure o p = Normal o' -> get o' p = Normal (or_empty (getp o p)).
Proof.
  intros H. pose proof (ensure_same _ _ _ H) as Hs. rewrite <- Hs.
  assert (Ho : isObject o' = true).
  { unfold ensure, get in H. destruct o; try discriminate H; cbn [isNil bindc] in H.
    - destruct (isNil (getp (JObj ps) p)); [|now injection H as <-].
      simpl in H. now injection H as <-. }
  now apply get_object.
Qed.

(** insert_value writes the slot it was asked for and no other. *)
Lemma insert_value_slots block plugin vb block' :
  insert_value block plugin vb = Normal block' ->
  default_slot block' = (if isString plugin then default_slot block else vb) /\
  forall name,
    plugin_slot block' name =
      if strict_eq_str plugin name then vb else plugin_slot block name.
Proof.
  intros H.
  assert (Hcase : (exists p, plugin = JStr p) \/
                  (isString plugin = false /\
                   insert_value block plugin vb = put block "__default" vb)).
  { destruct plugin; eauto. }
  unfold default_slot, plugin_slot.
  destruct Hcase as [[p ->]|[Hp Hput]].
  - cbn [isString strict_eq_str]. unfold insert_value in H.
    apply bindc_normal in H as (ib & Hib & H).
    apply bindc_normal in H as (pb & Hget & H).
    apply bindc_normal in H as (pb' & Hpb' & H).
    rewrite (get_ensure _ _ _ Hib) in Hget. injection Hget as <-.
    split.
    + rewrite (put_other _ _ _ _ "__default" H) by discriminate.
      now rewrite (ensure_other _ _ _ "__default" Hib) by discriminate.
    + intros name. rewrite (put_same _ _ _ _ H).
      destruct (String.eqb_spec p name) as [->|Hne].
      * apply (put_same _ _ _ _ Hpb').
      * rewrite (put_other _ _ _ _ name Hpb' Hne). apply getp_or_empty.
  - rewrite Hput in H. rewrite Hp. split; [apply (put_same _ _ _ _ H)|].
    intros name.
    replace (strict_eq_str plugin name) with false by (destruct plugin; auto; discriminate).
    now rewrite (put_other _ _ _ _ "__plugins" H) by discriminate.
Qed.

(** The walk of a registration writes one slot of one level. *)
Lemma insert_at_slots locale plugin vb keyBlock keyBlock' locale' :
  locale_normal locale -> locale_normal locale' ->
  insert_at locale plugin vb keyBlock = Normal keyBlock' ->
  default_slot (block_at keyBlock' locale') =
    (if andb (same_locale locale locale') (negb (isString plugin)) then vb
     else default_slot (block_at keyBlock locale')) /\
  forall name,
    plugin_slot (block_at keyBlock' locale') name =
      if andb (same_locale locale locale') (strict_eq_str plugin name) then vb
      else plugin_slot (block_at keyBlock locale') name.
Proof.
  intros Hn Hn' H. unfold insert_at in H.
  apply bindc_normal in H as (kb & Hkb & H).
  apply bindc_normal in H as (lb & Hlb & H).
  apply bindc_normal in H as (lb' & Hins & H).
  rewrite (get_ensure _ _ _ Hkb) in Hlb. injection Hlb as <-.
  destruct locale as [lang cc], locale' as [lang' cc'].
  unfold block_at, locale_normal in *. cbn [language countryCode] in *.
  destruct (string_dec lang lang') as [<-|Nl].
  2:{ rewrite same_locale_neq by congruence. cbn [andb].
      rewrite (put_other _ _ _ _ _ H), (ensure_other _ _ _ _ Hkb); auto;
        intros E; apply k_inj in E; contradiction. }
  rewrite (put_same _ _ _ _ H).
  destruct cc as [c|].
  - apply bindc_normal in Hins as (lb1 & Hlb1 & Hins).
    apply bindc_normal in Hins as (cb & Hcb & Hins).
    apply bindc_normal in Hins as (cb' & Hcb' & Hins).
    rewrite (get_ensure _ _ _ Hlb1) in Hcb. injection Hcb as <-.
    destruct cc' as [c'|].
    + destruct (string_dec c c') as [<-|Nc].
      * rewrite same_locale_refl. cbn [andb].
        rewrite (put_same _ _ _ _ Hins).
        destruct (insert_value_slots _ _ _ _ Hcb') as [Hd Hp].
        unfold default_slot, plugin_slot in *.
        rewrite Hd. split.
        -- rewrite !getp_or_empty. now destruct (isString plugin).
        -- intros name. rewrite Hp. now rewrite !getp_or_empty.
      * rewrite same_locale_neq by congruence. cbn [andb].
        rewrite (put_other _ _ _ _ _ Hins), (ensure_other _ _ _ _ Hlb1), getp_or_empty;
          auto; intros E; apply k_inj in E; contradiction.
    + rewrite same_locale_neq by congruence. cbn [andb].
      unfold default_slot, plugin_slot.
      rewrite (put_other _ _ _ _ "__default" Hins) by now apply k_not_default.
      rewrite (put_other _ _ _ _ "__plugins" Hins) by now apply k_not_plugins.
      rewrite (ensure_other _ _ _ "__default" Hlb1) by now apply k_not_default.
      rewrite (ensure_other _ _ _ "__plugins" Hlb1) by now apply k_not_plugins.
      now rewrite !getp_or_empty.
  - destruct cc' as [c'|].
    + rewrite same_locale_neq by congruence. cbn [andb].
      rewrite (insert_value_other _ _ _ _ (k c') Hins), getp_or_empty; auto;
        [now apply k_not_default | now apply k_not_plugins].
    + rewrite same_locale_refl. cbn [andb].
      destruct (insert_value_slots _ _ _ _ Hins) as [Hd Hp].
      unfold default_slot, plugin_slot in *. rewrite Hd. split.
      * rewrite !getp_or_empty. now destruct (isString plugin).
      * intros name. rewrite Hp. now rewrite !getp_or_empty.
Qed.

(** What findKeyBlock(key, true) creates reads like what was there. *)
Lemma findKeyBlock_create key sto key' q :
  getp (getp (JObj (fst (findKeyBlock key true sto))) key') q =
    getp (getp (JObj sto) key') q.
Proof.
  unfold findKeyBlock. cbn [andb fst].
  destruct (isUndefined (getp (JObj sto) key)) eqn:E; auto.
  destruct (string_dec key key') as [<-|Hne].
  - rewrite getp_setp_eq. destruct (getp (JObj sto) key); try discriminate. reflexivity.
  - now rewrite getp_setp_neq.
Qed.

Lemma block_at_ext keyBlock1 keyBlock2 locale :
  (forall q, getp keyBlock1 q = getp keyBlock2 q) ->
  block_at keyBlock1 locale = block_at keyBlock2 locale.
Proof. intros H. unfold block_at. now rewrite H. Qed.

(** _registerLocalization writes one slot: the one of its locale, key and
    plugin, and only when it returns. *)
Lemma registerLocalization_slots locale key value plugin st locale' key' :
  locale_normal locale -> locale_normal locale' ->
  let out := _registerLocalization locale key value plugin st in
  let hit := andb (andb (match fst out with Normal _ => true | Throw _ => false end)
                        (String.eqb key key'))
                  (same_locale locale locale') in
  default_slot (level_block (storage (snd out)) locale' key') =
    (if andb hit (negb (isString plugin)) then valueBlock value
     else default_slot (level_block (storage st) locale' key')) /\
  forall name,
    plugin_slot (level_block (storage (snd out)) locale' key') name =
      if andb hit (strict_eq_str plugin name) then valueBlock value
      else plugin_slot (level_block (storage st) locale' key') name.
Proof.
  intros Hn Hn'. cbv zeta. unfold _registerLocalization.
  pose proof (findKeyBlock_create key (storage st)) as Hcreate.
  destruct (findKeyBlock key true (storage st)) as [sto keyBlock] eqn:Hfind.
  assert (HkeyBlock : keyBlock = getp (JObj sto) key).
  { unfold findKeyBlock in Hfind. now injection Hfind as <- <-. }
  cbn [fst] in Hcreate.
  rewrite !level_block_block_at.
  rewrite <- (block_at_ext _ _ locale' (Hcreate key')).
  destruct (insert_at locale plugin (valueBlock value) keyBlock) as [keyBlock'|] eqn:Hins;
    cbn [fst snd storage with_storage andb]; [|auto].
  destruct (String.eqb_spec key key') as [<-|Hne]; cbn [andb].
  - rewrite getp_setp_eq, <- HkeyBlock.
    now apply insert_at_slots.
  - rewrite getp_setp_neq by auto. auto.
Qed.



(** ** Country codes from strings *)

Lemma ascii_upper_not_lower_d a : ascii_upper a <> "d"%char.
Proof. destruct a as [[] [] [] [] [] [] [] []]; vm_compute; discriminate. Qed.

Lemma ascii_upper_not_lower_p a : ascii_upper a <> "p"%char.
Proof. destruct a as [[] [] [] [] [] [] [] []]; vm_compute; discriminate. Qed.

(** An upper-cased country code is never one of the two slot names. *)
Lemma reserved_upper c : reserved (toUpperCase c) = false.
Proof.
  unfold reserved. apply orb_false_iff. split; apply String.eqb_neq;
    destruct c as [|a r]; try discriminate; cbn [toUpperCase]; intros [= H _].
  - now apply ascii_upper_not_lower_d in H.
  - now apply ascii_upper_not_lower_p in H.
Qed.

Lemma part_upper parts i c : part parts i toUpperCase = Some c -> reserved c = false.
Proof.
  unfold part. destruct (nth_error parts i) as [p|]; [|discriminate].
  destruct (String.eqb p EmptyString); [discriminate|].
  intros [= <-]. apply reserved_upper.
Qed.

(** A locale parsed from a string never has a slot name for country code. *)
Lemma parseLocale_normal s l : parseLocale (inl s) = Normal l -> locale_normal l.
Proof.
  unfold parseLocale. destruct (p_language (parseLocaleStr s)); [|discriminate].
  intros [= <-]. unfold locale_normal. cbn [countryCode].
  unfold parseLocaleStr. cbn [p_countryCode].
  match goal with |- match ?p with _ => _ end => destruct p as [c|] eqn:E end; auto.
  now apply part_upper in E.
Qed.

(** X10: the public registerLocalization, which insists on a plugin name,
    never changes a default slot: called with a key, locale markers and a
    plugin name that are own names, whether it returns or throws, it leaves
    the default slot of every such key and locale as it was. *)
Theorem registerLocalization_keeps_defaults :
  forall locale key value options st locale' key',
    match parseLocale locale with Normal l => locale_own l | Throw _ => True end ->
    own_name key ->
    match options with Some plugin => plugin_own plugin | None => True end ->
    locale_own locale' ->
    own_name key' ->
    default_slot
      (level_block (storage (snd (registerLocalization locale key value options st)))
         locale' key') =
    default_slot (level_block (storage st) locale' key').
Proof.
  intros locale key value options st locale' key' Hown _ _ Hown' _.
  pose proof (locale_own_normal _ Hown') as Hn'.
  unfold registerLocalization, assertOptions, with_locale.
  destruct options as [plugin|]; [|reflexivity].
  destruct (isString plugin) eqn:Hp; [|reflexivity].
  destruct (parseLocale locale) as [l|] eqn:Hl; [|reflexivity].
  pose proof (locale_own_normal _ Hown) as Hnl.
  destruct (registerLocalization_slots l key value plugin st locale' key' Hnl Hn') as [H _].
  rewrite H, Hp. cbn [negb]. now rewrite andb_false_r.
Qed.

Lemma registerLocalization_keeps_defaults_witness :
  default_slot
    (level_block
       (storage (snd (registerLocalization (inl "en-US") "farewell" "Bye"
                        (Some (JStr "blog")) layered)))
       en_US "farewell") =
  default_slot (level_block (storage layered) en_US "farewell").
Proof.
  apply (registerLocalization_keeps_defaults (inl "en-US") "farewell" "Bye"
           (Some (JStr "blog")) layered en_US "farewell");
    try reflexivity; repeat split; reflexivity.
Defined.

(** ** What unregistering cannot reach *)

(** Storing a changed country block back leaves the plugin slots of every
    level alone when the change spares [__plugins]. *)
Lemma store_country_plugin_slots keyBlock lang cc cb' locale' name :
  locale_normal locale' ->
  reserved cc = false ->
  isObject keyBlock = true ->
  isObject (getp keyBlock (k lang)) = true ->
  getp cb' "__plugins" = getp (getp (getp keyBlock (k lang)) (k cc)) "__plugins" ->
  plugin_slot
    (block_at (setp keyBlock (k lang) (setp (getp keyBlock (k lang)) (k cc) cb')) locale')
    name =
  plugin_slot (block_at keyBlock locale') name.
Proof.
  intros Hn' Hcc Hkb Hlb Hsame. destruct locale' as [lang' cc'].
  unfold block_at, locale_normal, plugin_slot in *. cbn [language countryCode] in *.
  destruct (string_dec lang lang') as [<-|Nl].
  2:{ rewrite setp_other; auto. intros E. apply k_inj in E. contradiction. }
  rewrite setp_same by auto.
  destruct cc' as [c'|].
  - destruct (string_dec cc c') as [<-|Nc].
    + rewrite setp_same by auto. now rewrite Hsame.
    + rewrite setp_other; auto. intros E. apply k_inj in E. contradiction.
  - rewrite setp_other; auto. now apply k_not_plugins.
Qed.

Lemma unregisterLocalization_plugin_slots locale key plugin st locale' key' name :
  locale_normal locale -> locale_normal locale' ->
  storage_ok (storage st) ->
  plugin_slot
    (level_block (storage (snd (unregisterLocalization locale key plugin st))) locale' key')
    name =
  plugin_slot (level_block (storage st) locale' key') name.
Proof.
  intros Hn Hn' Hsto.
  destruct locale as [lang [cc|]]; [|now rewrite unregister_language_level_noop].
  unfold locale_normal in Hn. cbn [countryCode] in Hn.
  unfold unregisterLocalization, findKeyBlock. cbn [andb snd language countryCode].
  destruct (key_absent (storage st) key); auto.
  destruct (negb (truthy (getp (JObj (storage st)) key))); auto.
  destruct (isNil (getp (getp (JObj (storage st)) key) (k lang))) eqn:Hlb; auto.
  pose proof (getp_object _ _ Hlb) as Hkbo.
  pose proof (proj2 (Hsto key) (mkLocale lang None) I) as Hlevel.
  unfold block_at in Hlevel. cbn [language countryCode] in Hlevel.
  destruct (level_ok_inv _ Hlevel Hlb) as [Hlbo _]. clear Hlevel.
  set (keyBlock := getp (JObj (storage st)) key) in *.
  set (langBlock := getp keyBlock (k lang)) in *.
  set (countryBlock := getp langBlock (k cc)).
  assert (Hstore : forall cb',
    getp cb' "__plugins" = getp countryBlock "__plugins" ->
    plugin_slot
      (level_block
         (set_own (storage st) key (setp keyBlock (k lang) (setp langBlock (k cc) cb')))
         locale' key') name =
    plugin_slot (level_block (storage st) locale' key') name).
  { intros cb' Hcb'. rewrite !level_block_block_at.
    destruct (string_dec key key') as [<-|Hne]; [|now rewrite getp_setp_neq].
    rewrite getp_setp_eq. now apply store_country_plugin_slots. }
  destruct (isNil countryBlock) eqn:Hcb; cbn [negb andb].
  - unfold get. now rewrite Hcb.
  - pose proof (storage_ok_level (storage st) (mkLocale lang (Some cc)) key Hsto Hn Hcb)
      as (Hpb & _ & _).
    unfold level_block in Hpb. cbn [language countryCode] in Hpb.
    fold keyBlock langBlock countryBlock in Hpb.
    destruct (isString plugin) eqn:Hp.
    + destruct (isString (getp countryBlock (to_string plugin))) eqn:Hstr; auto.
      cbn [snd storage with_storage]. apply Hstore.
      apply delp_other. intros E. rewrite E in Hstr.
      destruct Hpb as [H|H]; destruct (getp countryBlock "__plugins"); discriminate.
    + unfold get. rewrite Hcb.
      destruct (isObject (getp countryBlock "__default")); auto.
      cbn [snd storage with_storage]. apply Hstore.
      apply delp_other. discriminate.
Qed.

Lemma unregister_keys_plugin_slots locale plugin keys prev st locale' key' name :
  locale_normal locale -> locale_normal locale' ->
  storage_ok (storage st) ->
  plugin_slot
    (level_block (storage (snd (unregister_keys locale plugin keys prev st))) locale' key')
    name =
  plugin_slot (level_block (storage st) locale' key') name.
Proof.
  intros Hn Hn'. revert prev st.
  induction keys as [|key rest IH]; intros prev st Hsto; cbn [unregister_keys snd]; auto.
  pose proof (unregisterLocalization_plugin_slots locale key plugin st locale' key' name
                Hn Hn' Hsto) as H1.
  pose proof (unregisterLocalization_ok locale key plugin st Hn Hsto) as H2.
  destruct (unregisterLocalization locale key plugin st) as [[removed|m] st1];
    cbn [snd] in *; auto.
  rewrite IH; auto.
Qed.

(** X11: a value registered for a plugin cannot be unregistered: on a
    well-formed storage, unregisterLocalization and unregisterLocale, with or
    without a plugin name and whether they return or throw, leave every
    plugin slot of every key and locale as it was. *)
Theorem unregister_keeps_plugin_slots :
  forall locale key plugin st locale' key' name,
    locale_normal locale -> locale_normal locale' ->
    storage_ok (storage st) ->
    plugin_slot
      (level_block (storage (snd (unregisterLocalization locale key plugin st)))
         locale' key') name =
      plugin_slot (level_block (storage st) locale' key') name
    /\
    plugin_slot
      (level_block (storage (snd (unregisterLocale locale plugin st))) locale' key') name =
      plugin_slot (level_block (storage st) locale' key') name.
Proof.
  intros locale key plugin st locale' key' name Hn Hn' Hsto. split.
  - now apply unregisterLocalization_plugin_slots.
  - unfold unregisterLocale.
    pose proof (unregister_keys_plugin_slots locale plugin (own_keys (storage st)) 0%Z st
                  locale' key' name Hn Hn' Hsto) as H.
    destruct (unregister_keys locale plugin (own_keys (storage st)) 0 st) as [[n|m] st1];
      exact H.
Qed.

Lemma unregister_keeps_plugin_slots_witness :
  plugin_slot
    (level_block (storage (snd (unregisterLocalization en_US "greeting" (JStr "shop") themed)))
       en_US "greeting") "shop" =
    plugin_slot (level_block (storage themed) en_US "greeting") "shop"
  /\
  plugin_slot
    (level_block (storage (snd (unregisterLocale en_US (JStr "shop") themed)))
       en_US "greeting") "shop" =
    plugin_slot (level_block (storage themed) en_US "greeting") "shop".
Proof.
  apply (unregister_keeps_plugin_slots en_US "greeting" (JStr "shop") themed en_US
           "greeting" "shop"); try reflexivity.
  unfold themed, state_after.
  repeat (apply registerLocalization_ok; [reflexivity|]).
  apply storage_ok_empty.
Defined.

(** ** Default slots under unregistration *)






(** ** Bulk registration on a well-formed storage *)


(** ** The leaves a bulk registration stores *)


















(** ** What g hands back *)

Lemma finalize_string key result :
  isString (finalize key JUndef result) = true.
Proof. unfold finalize. cbn [isUndefined negb]. rewrite orb_false_r. now destruct result. Qed.

(** X16: with no [options.defaultVal], whatever g returns is a string: a
    value found, or the key itself; this holds for any storage, cache and
    locale. *)
Theorem g_returns_string :
  forall defaultLocale sto key options self,
    opt_defaultVal (options_or_default options) = JUndef ->
    match fst (g defaultLocale sto key options self) with
    | Normal r => isString r = true
    | Throw _ => True
    end.
Proof.
  intros dl sto key options self Hdv. unfold g. rewrite Hdv.
  destruct (negb (isObject (params_of (options_or_default options)))); [exact I|].
  destruct (key_absent sto key) eqn:Habsent.
  { apply finalize_string. }
  destruct (truthy (getp (JObj (cache self)) key)).
  { destruct (processValue _ _ _ _ _) as [[x|m] c]; [|exact I].
    apply finalize_string. }
  unfold findKeyBlock. cbn [andb snd].
  unfold key_absent in Habsent. rewrite Habsent.
  destruct (processLanguageBlock _ _ _ _ _ _ _) as [[x|m] c]; [|exact I].
  destruct (negb (isString x)) eqn:Hx.
  - destruct (locale_differs dl (localeObj self)).
    + destruct (processLanguageBlock _ _ _ _ _ _ _) as [[y|m] c']; [|exact I].
      apply finalize_string.
    + apply finalize_string.
  - apply finalize_string.
Qed.

Lemma g_returns_string_witness :
  match fst (g en_US (storage layered) "unknown.key" None (new_instance de_DE JUndef)) with
  | Normal r => isString r = true
  | Throw _ => True
  end.
Proof.
  apply (g_returns_string en_US (storage layered) "unknown.key" None
           (new_instance de_DE JUndef)).
  reflexivity.
Defined.

(** ** g on a well-formed storage *)







(** ** The cache entries g writes *)

Lemma agree_off_refl key c : agree_off key c c.
Proof. now intros key' _. Qed.

Lemma agree_off_trans key c1 c2 c3 :
  agree_off key c1 c2 -> agree_off key c2 c3 -> agree_off key c1 c3.
Proof. intros H1 H2 key' Hne. now rewrite H2, H1. Qed.

Lemma processValue_cache key params dpv localization c :
  agree_off key c (snd (processValue key params dpv localization c)).
Proof.
  unfold processValue.
  assert (H : agree_off key c (set_own c key localization)).
  { intros key' Hne. now apply get_own_set_own_neq. }
  destruct (truthy (getp localization "isParameterized")); [|exact H].
  now destruct (replaceParameters _ _ _).
Qed.

Lemma processKeyBlock_cache key params dpv plugin block c :
  agree_off key c (snd (processKeyBlock key params dpv plugin block c)).
Proof.
  unfold processKeyBlock.
  assert (Hfrom : agree_off key c
    (snd (if negb (isNil (getp block "__default"))
          then processValue key params dpv (getp block "__default") c
          else (Normal JNull, c)))).
  { destruct (negb (isNil (getp block "__default")));
      [apply processValue_cache|apply agree_off_refl]. }
  destruct (negb (isNil (getp block "__plugins"))); [|exact Hfrom].
  destruct (negb (isNil (getp (getp block "__plugins") (to_string plugin))));
    [apply processValue_cache|].
  destruct (first_other_plugin _ _ _); [apply processValue_cache|exact Hfrom].
Qed.

Lemma processLanguageBlock_cache key params dpv plugin locale langBlock c :
  agree_off key c (snd (processLanguageBlock key params dpv plugin locale langBlock c)).
Proof.
  unfold processLanguageBlock.
  destruct (negb (isObject langBlock)); [apply agree_off_refl|].
  assert (Hat : forall c1, agree_off key c1
    (snd match processKeyBlock key params dpv plugin langBlock c1 with
         | (Normal langResult, c2) =>
             if isString langResult then (Normal langResult, c2) else (Normal JNull, c2)
         | (Throw m, c2) => (Throw m, c2)
         end)).
  { intros c1. pose proof (processKeyBlock_cache key params dpv plugin langBlock c1) as H.
    destruct (processKeyBlock key params dpv plugin langBlock c1) as [[r|m] c2]; auto.
    now destruct (isString r). }
  destruct (countryCode locale) as [cc|]; [|apply Hat].
  destruct (negb (isNil (getp langBlock (k cc)))); [|apply Hat].
  pose proof (processKeyBlock_cache key params dpv plugin (getp langBlock (k cc)) c) as H.
  destruct (processKeyBlock key params dpv plugin (getp langBlock (k cc)) c) as [[r|m] c1];
    auto.
  destruct (isString r); auto.
  eapply agree_off_trans; [exact H|apply Hat].
Qed.

(** X18: a call of g for a key touches nothing of the instance but the
    cache entry of that key: the locale and the active theme stay, and the
    cache holds for every other key what it held before, whether g returns
    or throws. *)
Theorem g_writes_one_cache_entry :
  forall defaultLocale sto key options self,
    localeObj (snd (g defaultLocale sto key options self)) = localeObj self /\
    activeTheme (snd (g defaultLocale sto key options self)) = activeTheme self /\
    agree_off key (cache self) (cache (snd (g defaultLocale sto key options self))).
Proof.
  intros dl sto key options self. unfold g.
  destruct (negb (isObject (params_of (options_or_default options))));
    [repeat split; apply agree_off_refl|].
  destruct (key_absent sto key); [repeat split; apply agree_off_refl|].
  destruct (truthy (getp (JObj (cache self)) key)).
  { pose proof (processValue_cache key (params_of (options_or_default options))
                  (opt_defaultParamVal (options_or_default options))
                  (getp (JObj (cache self)) key) (cache self)) as H.
    destruct (processValue _ _ _ _ _) as [[r|m] c]; repeat split; exact H. }
  destruct (negb (truthy (snd (findKeyBlock key false sto))));
    [repeat split; apply agree_off_refl|].
  match goal with
  | |- context [processLanguageBlock ?a ?b ?c ?d ?e ?f ?g] =>
      pose proof (processLanguageBlock_cache a b c d e f g) as H1;
      destruct (processLanguageBlock a b c d e f g) as [[r|m] c1]
  end; [|repeat split; exact H1].
  destruct (negb (isString r)); [|repeat split; exact H1].
  destruct (locale_differs dl (localeObj self)); [|repeat split; exact H1].
  match goal with
  | |- context [processLanguageBlock ?a ?b ?c ?d ?e ?f ?g] =>
      pose proof (processLanguageBlock_cache a b c d e f g) as H2;
      destruct (processLanguageBlock a b c d e f g) as [[r'|m] c2]
  end; repeat split; eapply agree_off_trans; eauto.
Qed.

(** ** The default locale as fallback *)




(** ** The interpolator on templates *)

Lemma append_char_append acc c r : append_char acc c ++ r = acc ++ String c r.
Proof. unfold append_char. now rewrite append_assoc. Qed.

Lemma scan_loop_app params dv x y st :
  scan_loop params dv (x ++ y) st = scan_loop params dv y (scan_loop params dv x st).
Proof. revert st. induction x as [|c r IH]; intros st; simpl; auto. Qed.

(** Outside a parameter, text without an unescaped opening brace is copied. *)
Lemma scan_text params dv s before var acc :
  braces_escaped before s = true ->
  scan_loop params dv s (mkScan before false var acc) =
    mkScan (last_char before s) false var (acc ++ s).
Proof.
  revert before acc. induction s as [|c r IH]; intros before acc H.
  - cbn [scan_loop last_char]. now rewrite append_empty_r.
  - cbn [braces_escaped] in H. apply andb_true_iff in H as [Hc Hr].
    cbn [scan_loop last_char]. unfold scan_step at 1. cbn [isOpen negb andb prev val variable].
    assert (Hfirst : andb (Ascii.eqb c "{")
                       (match before with
                        | Some p => negb (Ascii.eqb p "%")
                        | None => true
                        end) = false).
    { destruct (Ascii.eqb c "{"); auto. cbn [negb orb] in Hc.
      destruct before as [p|]; cbn [is_percent] in Hc; [now rewrite Hc|discriminate]. }
    rewrite Hfirst. rewrite (IH (Some c) (append_char acc c) Hr).
    now rewrite append_char_append.
Qed.

(** Inside a parameter, everything up to the closing brace goes to the
    name. *)
Lemma scan_name params dv name before var acc :
  has_char "}" name = false ->
  scan_loop params dv name (mkScan before true var acc) =
    mkScan (last_char before name) true (var ++ name) acc.
Proof.
  revert before var. induction name as [|c r IH]; intros before var H.
  - cbn [scan_loop last_char]. now rewrite append_empty_r.
  - cbn [has_char] in H. apply orb_false_iff in H as [Hc Hr].
    cbn [scan_loop last_char]. unfold scan_step at 1.
    cbn [isOpen negb andb prev val variable]. rewrite Hc.
    rewrite (IH (Some c) (append_char var c) Hr).
    now rewrite append_char_append.
Qed.

Lemma not_percent_opens before :
  is_percent before = false ->
  match before with
  | Some p => negb (Ascii.eqb p "%")
  | None => true
  end = true.
Proof. destruct before as [p|]; auto. cbn [is_percent]. now intros ->. Qed.

(** The scanner over a well-cut template: it ends outside a parameter with
    the replaced text in [val]. *)
Lemma scan_template params dv t before acc :
  template_ok before t = true ->
  scan_loop params dv (template_string t) (mkScan before false EmptyString acc) =
    mkScan (template_last before t) false EmptyString (acc ++ template_value params dv t).
Proof.
  revert before acc. induction t as [|[s|name] r IH]; intros before acc H.
  - cbn [template_string template_value template_last scan_loop].
    now rewrite append_empty_r.
  - cbn [template_ok] in H. apply andb_true_iff in H as [Hs Hr].
    cbn [template_string template_value template_last].
    rewrite scan_loop_app, (scan_text _ _ _ _ _ _ Hs), (IH _ _ Hr).
    now rewrite append_assoc.
  - cbn [template_ok] in H. apply andb_true_iff in H as [H Hr].
    apply andb_true_iff in H as [Hp Hn].
    apply negb_true_iff in Hp. apply negb_true_iff in Hn.
    cbn [template_string template_value template_last]. cbn [scan_loop].
    unfold scan_step at 1. cbn [isOpen negb andb prev val variable Ascii.eqb Bool.eqb].
    rewrite (not_percent_opens _ Hp).
    rewrite scan_loop_app, (scan_name _ _ _ _ _ _ Hn).
    cbn [scan_loop]. unfold scan_step at 1.
    cbn [isOpen negb andb prev val variable Ascii.eqb Bool.eqb].
    rewrite (IH _ _ Hr). unfold param_value. cbn [append].
    now rewrite append_assoc.
Qed.

Lemma template_ok_app before (t u : template) :
  template_ok before (t ++ u)%list =
    andb (template_ok before t) (template_ok (template_last before t) u).
Proof.
  revert before. induction t as [|[s|name] r IH]; intros before;
    cbn [app template_ok template_last]; auto.
  - now rewrite IH, andb_assoc.
  - now rewrite IH, andb_assoc.
Qed.

(** X20: what replaceParameters computes: for a value cut into literal text
    and parameters in braces (text may hold an opening brace only right
    after a percent sign, which stays in the text; a parameter name holds no
    closing brace), the result is the text pieces as they are, percent
    signs included, with each parameter replaced by
    [params[name] || defaultVal || name]. *)
Theorem replaceParameters_template :
  forall t params defaultVal,
    template_ok None t = true ->
    isObject params = true ->
    replaceParameters (JStr (template_string t)) params defaultVal =
      Normal (template_value params defaultVal t).
Proof.
  intros t params dv Hok Hp. unfold replaceParameters, interpolate. rewrite Hp.
  now rewrite (scan_template params dv t None EmptyString Hok).
Qed.

Lemma replaceParameters_template_witness :
  replaceParameters
    (JStr (template_string [Text "Dear "; Param "name"; Text ", 100%{sure} "; Param "who"]))
    (JObj [("name", JStr "Ada")]) JUndef =
    Normal (template_value (JObj [("name", JStr "Ada")]) JUndef
              [Text "Dear "; Param "name"; Text ", 100%{sure} "; Param "who"]).
Proof.
  apply (replaceParameters_template
           [Text "Dear "; Param "name"; Text ", 100%{sure} "; Param "who"]
           (JObj [("name", JStr "Ada")]) JUndef); reflexivity.
Defined.

(** X21: an opening brace that is never closed swallows the rest of the
    value: after a well-cut template, an unescaped opening brace followed by
    text without a closing brace adds nothing to the result, and neither
    the brace nor the text after it is returned. *)
Theorem replaceParameters_unclosed_brace :
  forall t rest params defaultVal,
    template_ok None (t ++ [Param rest])%list = true ->
    isObject params = true ->
    replaceParameters (JStr (template_string t ++ String "{" rest)) params defaultVal =
      Normal (template_value params defaultVal t).
Proof.
  intros t rest params dv Hok Hp. unfold replaceParameters, interpolate. rewrite Hp.
  rewrite template_ok_app in Hok. apply andb_true_iff in Hok as [Ht Hrest].
  cbn [template_ok] in Hrest. apply andb_true_iff in Hrest as [Hrest _].
  apply andb_true_iff in Hrest as [Hpc Hn].
  apply negb_true_iff in Hpc. apply negb_true_iff in Hn.
  rewrite scan_loop_app, (scan_template params dv t None EmptyString Ht).
  cbn [scan_loop]. unfold scan_step at 1.
  cbn [isOpen negb andb prev val variable Ascii.eqb Bool.eqb].
  rewrite (not_percent_opens _ Hpc), (scan_name _ _ _ _ _ _ Hn).
  reflexivity.
Qed.

Lemma replaceParameters_unclosed_brace_witness :
  replaceParameters (JStr (template_string [Text "Hi "; Param "name"; Text "!"]
                            ++ String "{" " and more"))
    (JObj [("name", JStr "Ada")]) JUndef =
    Normal (template_value (JObj [("name", JStr "Ada")]) JUndef
              [Text "Hi "; Param "name"; Text "!"]).
Proof.
  apply (replaceParameters_unclosed_brace [Text "Hi "; Param "name"; Text "!"] " and more"
           (JObj [("name", JStr "Ada")]) JUndef); reflexivity.
Defined.
